(** * ekranoplan/checks.py: session, permission and message checks

    A shallow embedding of [checks.py].  The functions of the module read
    the store (Cassandra tables reached through cqlengine models), raise
    Python exceptions and never write.  They are embedded in a small
    state-and-error monad: the state is the store together with the trace
    of the queries issued so far, errors are the exceptions. *)

From Stdlib Require Import ZArith List String Bool Lia.
Import ListNotations.
Open Scope Z_scope.

(** ** Exceptions *)

Inductive error : Type :=
| Unauthenticated                 (* raised by the token verifier *)
| Forbidden
| NotFound
| BadData
| DoesNotExist                    (* query.DoesNotExist *)
| MultipleObjectsReturned         (* query.MultipleObjectsReturned *)
| AttributeError (name : string). (* getattr on an undeclared flag *)

(** ** Data model

    Modelled from the spec: the cqlengine models [checks.py] imports from
    [.database] are not in this part of the repository.  The records carry
    the attributes of the spec's data model, which are the ones [checks.py]
    reads; every [id] attribute gets a name of its own. *)

Record User := mkUser {
  user_id : Z;
  user_bot : bool;
  user_flags : Z
}.

Record Member := mkMember {
  member_id : Z;
  member_guild_id : Z;
  member_owner : bool;
  member_roles : list Z        (* [list(member.roles)] *)
}.

Record Guild := mkGuild {
  guild_id_of : Z;
  guild_permissions : Z
}.

Record Role := mkRole {
  role_id_of : Z;
  role_permissions : Z
}.

Record PermissionOverWrites := mkOverwrite {
  overwrite_id : Z;
  overwrite_allow : Z;
  overwrite_deny : Z
}.

Record GuildChannel := mkChannel {
  channel_id_of : Z;
  channel_guild_id : Z;
  channel_position : Z;
  channel_parent_id : Z;
  permission_overwrites : list PermissionOverWrites
}.

Record Message := mkMessage {
  message_id_of : Z;
  message_channel_id : Z;
  message_bucket_id : Z;
  message_content : string
}.

(** The tables the module reads. *)
Record Store := mkStore {
  members : list Member;
  guild_channels : list GuildChannel;
  guilds : list Guild;
  roles : list Role;
  messages : list Message
}.

(** One entry per query sent to the store. *)
Inductive query : Type :=
| QMember (uid gid : Z)
| QGuildChannel (cid gid : Z)
| QGuildChannelById (cid gid : Z)
| QGuildChannels (gid : Z)
| QGuild (gid : Z)
| QRole (rid : Z)
| QMessages (cid bucket limit : Z)
| QMessage (mid cid bucket : Z).

Record world := mkWorld {
  db : Store;
  trace : list query
}.

(** ** The monad *)

Definition M (A : Type) : Type := world -> (error + A) * world.

Definition ret {A} (a : A) : M A := fun w => (inr a, w).

Definition raise {A} (e : error) : M A := fun w => (inl e, w).

Definition bind {A B} (m : M A) (k : A -> M B) : M B :=
  fun w => match m w with
           | (inr a, w') => k a w'
           | (inl e, w') => (inl e, w')
           end.

Notation "x <- m ;; k" := (bind m (fun x => k))
  (at level 61, m at next level, right associativity).
Notation "' pat <- m ;; k" := (bind m (fun x => match x with pat => k end))
  (at level 61, pat pattern, m at next level, right associativity).

(** [try: m except: h] *)
Definition try_except {A} (m : M A) (h : error -> M A) : M A :=
  fun w => match m w with
           | (inr a, w') => (inr a, w')
           | (inl e, w') => h e w'
           end.

(** [except (query.DoesNotExist): raise e'] lets every other exception
    through. *)
Definition on_DoesNotExist {A} (e' : error) (e : error) : M A :=
  match e with
  | DoesNotExist => raise e'
  | _ => raise e
  end.

Definition lift {A} (r : error + A) : M A := fun w => (r, w).

Definition record (q : query) : M unit :=
  fun w => (inr tt, {| db := db w; trace := trace w ++ [q] |}).

Definition read_table {R} (table : Store -> list R) : M (list R) :=
  fun w => (inr (table (db w)), w).

(** ** cqlengine query sets *)

(** [QuerySet.get()]: the single matching row. *)
Definition get_row {R} (rows : list R) : error + R :=
  match rows with
  | [] => inl DoesNotExist
  | [r] => inr r
  | _ :: _ :: _ => inl MultipleObjectsReturned
  end.

Definition objects_all {R} (q : query) (table : Store -> list R)
    (p : R -> bool) : M (list R) :=
  _ <- record q ;;
  rows <- read_table table ;;
  ret (filter p rows).

Definition objects_get {R} (q : query) (table : Store -> list R)
    (p : R -> bool) : M R :=
  rows <- objects_all q table p ;;
  lift (get_row rows).

(** [order_by('-id')] *)
Fixpoint insert_desc (m : Message) (l : list Message) : list Message :=
  match l with
  | [] => [m]
  | x :: xs =>
      if message_id_of x <=? message_id_of m then m :: x :: xs
      else x :: insert_desc m xs
  end.

Definition order_by_id_desc (l : list Message) : list Message :=
  fold_right insert_desc [] l.

(** Modelled from the spec: the query engine's [limit] is not part of the
    module; the spec has each bucket query fetch up to [limit] messages. *)
Definition take_limit {R} (limit : Z) (l : list R) : list R :=
  firstn (Z.to_nat limit) l.

(** [range(n)] *)
Definition range (n : Z) : list Z := map Z.of_nat (seq 0 (Z.to_nat n)).

(** [l[k:]], negative [k] counting from the end. *)
Definition slice_from {A} (k : Z) (l : list A) : list A :=
  if k <? 0 then skipn (List.length l - Z.to_nat (- k))%nat l
  else skipn (Z.to_nat k) l.

(** Modelled from the spec: the flag classes of [.flags] are missing.  A
    bitset includes a flag when every bit of the flag's mask is set. *)
Definition has_flag (value mask : Z) : bool := Z.land value mask =? mask.

(** ** The functions of [checks.py] *)

(** What [search_messages] returns: [Union[List[Message], Message, None]].
    The listing holds what the loop appended, one entry per bucket. *)
Inductive search_result : Type :=
| Listing (collected_messages : list (list Message))
| Found (msg : Message)
| Absent.

(** Collaborators the module imports and this repository part does not
    hold: the token verifier ([.tokens]), the bucket of a snowflake
    ([.randoms]) and the flag classes ([.flags]): [flag_value] is the mask
    of each flag [GuildPermissions] declares, looked up by name through
    [getattr]; [administator] and [staff] are the masks behind the two
    attributes the module reads by name. *)
Class Collaborators := {
  verify_token : string -> error + User;
  get_bucket : Z -> Z;
  flag_value : string -> option Z;
  administator : Z;
  staff : Z
}.

Section Checks.

Context `{Collaborators}.

(** [getattr(GuildPermissions(value), permission)] *)
Definition getattr (value : Z) (permission : string) : M bool :=
  match flag_value permission with
  | Some mask => ret (has_flag value mask)
  | None => raise (AttributeError permission)
  end.

Definition valid_session (token : string) : M User :=
  lift (verify_token token).

Definition validate_user (token : string) (stop_bots : bool) : M User :=
  user <- valid_session token ;;
  if stop_bots && user_bot user then raise Forbidden
  else ret user.

Definition Member_get (uid gid : Z) : M Member :=
  objects_get (QMember uid gid) members
    (fun m => (member_id m =? uid) && (member_guild_id m =? gid)).

(** [stop_bots] is accepted and the user is validated with the default. *)
Definition validate_member (token : string) (guild_id : Z)
    (stop_bots : bool) : M (Member * User) :=
  user <- validate_user token false ;;
  member <- try_except (Member_get (user_id user) guild_id)
              (on_DoesNotExist Forbidden) ;;
  ret (member, user).

Definition validate_admin (token : string) : M User :=
  admin <- validate_user token false ;;
  if negb (has_flag (user_flags admin) staff) then raise Forbidden
  else ret admin.

Definition GuildChannel_get (channel_id guild_id : Z) : M GuildChannel :=
  objects_get (QGuildChannel channel_id guild_id) guild_channels
    (fun c => (channel_id_of c =? channel_id)
              && (channel_guild_id c =? guild_id)).

Definition Guild_get (guild_id : Z) : M Guild :=
  objects_get (QGuild guild_id) guilds (fun g => guild_id_of g =? guild_id).

Definition Role_get (role_id : Z) : M Role :=
  objects_get (QRole role_id) roles (fun r => role_id_of r =? role_id).

(** The scan of lines 79-87: the first overwrite of the user, if any. *)
Fixpoint first_overwrite (uid : Z) (overwrites : list PermissionOverWrites)
    : option PermissionOverWrites :=
  match overwrites with
  | [] => None
  | overwrite :: rest =>
      if overwrite_id overwrite =? uid then Some overwrite
      else first_overwrite uid rest
  end.

(** Lines 90-98: the guild's permissions for a member without roles, the
    first role's otherwise. *)
Definition baseline_permissions (member : Member) (guild_id : Z) : M Z :=
  match member_roles member with
  | [] => guild <- Guild_get guild_id ;; ret (guild_permissions guild)
  | role_id :: _ => role <- Role_get role_id ;; ret (role_permissions role)
  end.

Definition validate_channel (token : string) (guild_id channel_id : Z)
    (permission : string) (stop_bots : bool)
    : M (Member * User * GuildChannel) :=
  '(member, user) <- validate_member token guild_id stop_bots ;;
  channel <- try_except (GuildChannel_get channel_id guild_id)
               (on_DoesNotExist NotFound) ;;
  if member_owner member then ret (member, user, channel)
  else
    match first_overwrite (user_id user) (permission_overwrites channel) with
    | None =>
        permissions <- baseline_permissions member guild_id ;;
        if has_flag permissions administator then ret (member, user, channel)
        else
          granted <- getattr permissions permission ;;
          if negb granted then raise Forbidden
          else ret (member, user, channel)
    | Some overwrite =>
        denied <- getattr (overwrite_deny overwrite) permission ;;
        if denied then raise Forbidden
        else
          allowed <- getattr (overwrite_allow overwrite) permission ;;
          if negb allowed then raise Forbidden
          else ret (member, user, channel)
    end.

Definition Message_bucket (channel_id bucket limit : Z) : M (list Message) :=
  msgs <- objects_all (QMessages channel_id bucket limit) messages
            (fun m => (message_channel_id m =? channel_id)
                      && (message_bucket_id m =? bucket)) ;;
  ret (take_limit limit (order_by_id_desc msgs)).

Definition Message_get (message_id channel_id bucket : Z) : M Message :=
  objects_get (QMessage message_id channel_id bucket) messages
    (fun m => (message_id_of m =? message_id)
              && (message_channel_id m =? channel_id)
              && (message_bucket_id m =? bucket)).

(** The loop of lines 123-138. *)
Fixpoint collect_buckets (channel_id limit : Z) (buckets : list Z)
    (collected_messages : list (list Message)) : M (list (list Message)) :=
  match buckets with
  | [] => ret collected_messages
  | bucket :: rest =>
      msgs <- Message_bucket channel_id bucket limit ;;
      let collected_messages := collected_messages ++ [msgs] in
      if Z.of_nat (List.length collected_messages) >? limit
      then ret (slice_from limit collected_messages)
      else collect_buckets channel_id limit rest collected_messages
  end.

(** The loop of lines 142-154; the bare [except] swallows every error. *)
Fixpoint lookup_buckets (message_id channel_id : Z) (buckets : list Z)
    : M search_result :=
  match buckets with
  | [] => ret Absent
  | bucket :: rest =>
      try_except
        (msg <- Message_get message_id channel_id bucket ;; ret (Found msg))
        (fun _ => lookup_buckets message_id channel_id rest)
  end.

Definition search_messages (channel_id : Z) (message_id : option Z)
    (limit : Z) : M search_result :=
  let current_bucket := get_bucket channel_id in
  match message_id with
  | None =>
      collected_messages <-
        collect_buckets channel_id limit (range current_bucket) [] ;;
      ret (Listing collected_messages)
  | Some message_id =>
      lookup_buckets message_id channel_id (range current_bucket)
  end.

Definition verify_parent_id (parent guild_id : Z) : M GuildChannel :=
  try_except
    (objects_get (QGuildChannelById parent guild_id) guild_channels
       (fun c => (channel_id_of c =? parent)
                 && (channel_guild_id c =? guild_id)))
    (on_DoesNotExist BadData).

Definition GuildChannel_all (guild_id : Z) : M (list GuildChannel) :=
  objects_all (QGuildChannels guild_id) guild_channels
    (fun c => channel_guild_id c =? guild_id).

(** The loop of lines 175-178. *)
Definition highest_position (guild_channels : list GuildChannel) : Z :=
  fold_left
    (fun highest_pos channel =>
       if channel_position channel >? highest_pos
       then channel_position channel else highest_pos)
    guild_channels 0.

Definition verify_channel_position (pos guild_id : Z) : M unit :=
  guild_channels <- GuildChannel_all guild_id ;;
  let highest_pos := highest_position guild_channels in
  if negb (pos =? highest_pos + 1) then raise BadData
  else ret tt.

End Checks.

(** ** What the claims speak of, following the spec's words *)

(** The bucket a message query addresses. *)
Definition query_bucket (q : query) : option Z :=
  match q with
  | QMessages _ bucket _ => Some bucket
  | QMessage _ _ bucket => Some bucket
  | _ => None
  end.

(** The number of messages a listing holds. *)
Definition message_count (r : search_result) : Z :=
  match r with
  | Listing collected_messages =>
      Z.of_nat (List.length (List.concat collected_messages))
  | Found _ => 1
  | Absent => 0
  end.

(** [m] is the maximum of [l]. *)
Definition is_maximum (m : Z) (l : list Z) : Prop :=
  In m l /\ forall x, In x l -> x <= m.

(** The positions of the channels of a guild. *)
Definition guild_positions (s : Store) (guild_id : Z) : list Z :=
  map channel_position
    (filter (fun c => channel_guild_id c =? guild_id) (guild_channels s)).

(** The largest of [0] and the positions in [l]. *)
Definition max_position (l : list Z) : Z := fold_right Z.max 0 l.

(** The rows of a channel that carry an identifier. *)
Definition stored (s : Store) (message_id channel_id : Z) : list Message :=
  filter (fun m => (message_id_of m =? message_id)
                   && (message_channel_id m =? channel_id)) (messages s).

(** The world once the queries [qs] have been sent: the store is the same,
    the trace is longer. *)
Definition after (w : world) (qs : list query) : world :=
  {| db := db w; trace := trace w ++ qs |}.

(** The page one bucket query yields: the bucket's rows of the channel,
    newest first, cut at [limit]. *)
Definition bucket_page (s : Store) (channel_id limit bucket : Z)
    : list Message :=
  take_limit limit
    (order_by_id_desc
       (filter (fun m => (message_channel_id m =? channel_id)
                         && (message_bucket_id m =? bucket)) (messages s))).

(** The store once a caller has inserted one more channel. *)
Definition with_channel (s : Store) (channel : GuildChannel) : Store :=
  {| members := members s;
     guild_channels := guild_channels s ++ [channel];
     guilds := guilds s;
     roles := roles s;
     messages := messages s |}.

(** The rows a membership lookup matches. *)
Definition memberships (s : Store) (uid guild_id : Z) : list Member :=
  filter (fun m => (member_id m =? uid) && (member_guild_id m =? guild_id))
    (members s).

(** The rows a channel lookup matches. *)
Definition channels_at (s : Store) (channel_id guild_id : Z)
    : list GuildChannel :=
  filter (fun c => (channel_id_of c =? channel_id)
                   && (channel_guild_id c =? guild_id)) (guild_channels s).

(** Lines 76-114 of [validate_channel]: the decision for a resolved
    member, user and channel. *)
Definition access_decision `{Collaborators} (member : Member) (user : User)
    (channel : GuildChannel) (guild_id : Z) (permission : string)
    : M (Member * User * GuildChannel) :=
  if member_owner member then ret (member, user, channel)
  else
    match first_overwrite (user_id user) (permission_overwrites channel) with
    | None =>
        permissions <- baseline_permissions member guild_id ;;
        if has_flag permissions administator then ret (member, user, channel)
        else
          granted <- getattr permissions permission ;;
          if negb granted then raise Forbidden
          else ret (member, user, channel)
    | Some overwrite =>
        denied <- getattr (overwrite_deny overwrite) permission ;;
        if denied then raise Forbidden
        else
          allowed <- getattr (overwrite_allow overwrite) permission ;;
          if negb allowed then raise Forbidden
          else ret (member, user, channel)
    end.

(** ** A small deployment, used to run the functions *)

Module Demo.

Local Open Scope string_scope.

Definition SEND_MESSAGES : Z := 2.
Definition MANAGE_CHANNEL : Z := 4.

Definition alice : User := mkUser 1 false 0.
Definition olga : User := mkUser 2 false 0.
Definition ravi : User := mkUser 3 false 0.
Definition robot : User := mkUser 10 true 0.

Definition collaborators : Collaborators := {|
  verify_token := fun token =>
    if String.eqb token "alice" then inr alice
    else if String.eqb token "olga" then inr olga
    else if String.eqb token "ravi" then inr ravi
    else if String.eqb token "robot" then inr robot
    else inl Unauthenticated;
  get_bucket := fun channel_id => if (channel_id =? 100)%Z then 2 else 0;
  flag_value := fun name =>
    if String.eqb name "send_messages" then Some SEND_MESSAGES
    else if String.eqb name "manage_channel" then Some MANAGE_CHANNEL
    else None;
  administator := 1;
  staff := 1
|}.

Definition alice_member : Member := mkMember 1 7 false [].
Definition olga_member : Member := mkMember 2 7 true [].
Definition ravi_member : Member := mkMember 3 7 false [50; 51].
Definition robot_member : Member := mkMember 10 7 false [].

Definition lobby : GuildChannel :=
  mkChannel 100 7 1 0
    [mkOverwrite 1 SEND_MESSAGES 0; mkOverwrite 10 SEND_MESSAGES 0].
Definition allow_then_deny : GuildChannel :=
  mkChannel 101 7 2 0
    [mkOverwrite 1 SEND_MESSAGES 0; mkOverwrite 1 0 SEND_MESSAGES].
Definition deny_then_allow : GuildChannel :=
  mkChannel 102 7 3 0
    [mkOverwrite 1 0 SEND_MESSAGES; mkOverwrite 1 SEND_MESSAGES 0].
Definition plain : GuildChannel := mkChannel 104 7 4 0 [].
Definition cellar : GuildChannel := mkChannel 900 9 (-1) 0 [].

Definition m1 : Message := mkMessage 1 100 0 "one".
Definition m2 : Message := mkMessage 2 100 0 "two".
Definition m3 : Message := mkMessage 3 100 1 "three".
Definition m4 : Message := mkMessage 4 100 1 "four".
Definition m5 : Message := mkMessage 5 100 2 "five".

Definition store : Store := {|
  members := [alice_member; olga_member; ravi_member; robot_member];
  guild_channels := [lobby; allow_then_deny; deny_then_allow; plain; cellar];
  guilds := [mkGuild 7 SEND_MESSAGES; mkGuild 8 0; mkGuild 9 0];
  roles := [mkRole 50 1; mkRole 51 0];
  messages := [m1; m2; m3; m4; m5]
|}.

Definition start : world := {| db := store; trace := [] |}.

End Demo.

(** A second deployment: the one member of guild [7] carries a role that
    has no row. *)
Module Orphan.

Definition member : Member := mkMember 1 7 false [99; 50].
Definition room : GuildChannel := mkChannel 100 7 1 0 [].

Definition store : Store := {|
  members := [member];
  guild_channels := [room];
  guilds := [mkGuild 7 Demo.SEND_MESSAGES];
  roles := [mkRole 50 1];
  messages := []
|}.

Definition start : world := {| db := store; trace := [] |}.

End Orphan.

(** ** Running the monad *)

Section Properties.

Context `{Collaborators}.

Lemma after_after w qs qs' : after (after w qs) qs' = after w (qs ++ qs').
Proof. unfold after; simpl. now rewrite <- app_assoc. Qed.

Lemma objects_all_run {R} q (table : Store -> list R) p w :
  objects_all q table p w = (inr (filter p (table (db w))), after w [q]).
Proof. reflexivity. Qed.

Lemma objects_get_run {R} q (table : Store -> list R) p w :
  objects_get q table p w = (get_row (filter p (table (db w))), after w [q]).
Proof.
  unfold objects_get, bind. rewrite objects_all_run. unfold lift.
  now destruct (get_row _).
Qed.

Lemma validate_member_inv token guild_id stop_bots w member user w1 :
  validate_member token guild_id stop_bots w = (inr (member, user), w1) ->
  verify_token token = inr user
  /\ w1 = after w [QMember (user_id user) guild_id].
Proof.
  unfold validate_member, validate_user, valid_session, bind, lift, try_except.
  destruct (verify_token token) as [e | u]; [discriminate |].
  cbn [andb]. unfold ret. cbv beta iota.
  unfold Member_get. rewrite objects_get_run.
  destruct (get_row _) as [e | m].
  - destruct e; discriminate.
  - unfold ret. intros E. injection E as -> -> <-. now split.
Qed.

(** Once the member and the channel are resolved, [validate_channel] runs
    lines 76-114 from the world the channel lookup left. *)
Lemma validate_channel_resolved token guild_id channel_id permission
    stop_bots w member user w1 channel w2 :
  validate_member token guild_id stop_bots w = (inr (member, user), w1) ->
  GuildChannel_get channel_id guild_id w1 = (inr channel, w2) ->
  validate_channel token guild_id channel_id permission stop_bots w =
  (if member_owner member then ret (member, user, channel)
   else
     match first_overwrite (user_id user) (permission_overwrites channel) with
     | None =>
         permissions <- baseline_permissions member guild_id ;;
         if has_flag permissions administator
         then ret (member, user, channel)
         else
           granted <- getattr permissions permission ;;
           if negb granted then raise Forbidden
           else ret (member, user, channel)
     | Some overwrite =>
         denied <- getattr (overwrite_deny overwrite) permission ;;
         if denied then raise Forbidden
         else
           allowed <- getattr (overwrite_allow overwrite) permission ;;
           if negb allowed then raise Forbidden
           else ret (member, user, channel)
     end) w2.
Proof.
  intros Hm Hc. unfold validate_channel, bind at 1 2, try_except.
  rewrite Hm. cbv beta iota. rewrite Hc. reflexivity.
Qed.

Lemma resolved_trace token guild_id channel_id stop_bots w member user w1
    channel w2 :
  validate_member token guild_id stop_bots w = (inr (member, user), w1) ->
  GuildChannel_get channel_id guild_id w1 = (inr channel, w2) ->
  w2 = after w [QMember (user_id user) guild_id;
                QGuildChannel channel_id guild_id].
Proof.
  intros Hm Hc. apply validate_member_inv in Hm as [_ ->].
  unfold GuildChannel_get in Hc. rewrite objects_get_run in Hc.
  injection Hc as _ <-. now rewrite after_after.
Qed.

(** The scan returns the first overwrite of the user. *)
Lemma first_overwrite_Some uid overwrites overwrite :
  first_overwrite uid overwrites = Some overwrite <->
  exists before rest,
    overwrites = before ++ overwrite :: rest
    /\ overwrite_id overwrite = uid
    /\ Forall (fun o => overwrite_id o <> uid) before.
Proof.
  induction overwrites as [| o os IH]; simpl.
  - split; [discriminate |]. intros (b & r & E & _). now destruct b.
  - destruct (Z.eqb_spec (overwrite_id o) uid) as [E | N].
    + split.
      * intros [= <-]. exists [], os. repeat split; auto.
      * intros ([| b bs] & r & E' & Hid & Hb).
        -- now injection E' as ->.
        -- injection E' as -> _. inversion Hb; subst. contradiction.
    + rewrite IH. split.
      * intros (b & r & -> & Hid & Hb). exists (o :: b), r.
        repeat split; auto.
      * intros ([| b bs] & r & E' & Hid & Hb).
        -- injection E' as -> _. contradiction.
        -- injection E' as -> ->. inversion Hb; subst.
           exists bs, r. repeat split; auto.
Qed.

Lemma first_overwrite_None uid overwrites :
  first_overwrite uid overwrites = None <->
  Forall (fun o => overwrite_id o <> uid) overwrites.
Proof.
  induction overwrites as [| o os IH]; simpl.
  - split; auto.
  - destruct (Z.eqb_spec (overwrite_id o) uid) as [E | N].
    + split; [discriminate |]. intros Hf. inversion Hf; subst. contradiction.
    + rewrite IH. split.
      * intros Hf. now constructor.
      * intros Hf. now inversion Hf.
Qed.

(** ** Channel permissions *)

(** C2, as amended: for a member who is not the owner, when the first
    overwrite of the channel's list whose target is the user denies the
    permission, [validate_channel] raises [Forbidden], whatever that
    overwrite allows and whatever the roles or the guild would grant: the
    run ends in the world the channel lookup left, so neither the guild nor
    a role has been read. *)
Theorem overwrite_deny_forbidden token guild_id channel_id permission
    stop_bots w member user w1 channel w2 overwrite mask :
  validate_member token guild_id stop_bots w = (inr (member, user), w1) ->
  GuildChannel_get channel_id guild_id w1 = (inr channel, w2) ->
  member_owner member = false ->
  first_overwrite (user_id user) (permission_overwrites channel)
    = Some overwrite ->
  flag_value permission = Some mask ->
  has_flag (overwrite_deny overwrite) mask = true ->
  validate_channel token guild_id channel_id permission stop_bots w
    = (inl Forbidden, w2)
  /\ trace w2 = trace w ++ [QMember (user_id user) guild_id;
                            QGuildChannel channel_id guild_id].
Proof.
  intros Hm Hc Howner Hfirst Hflag Hdeny. split.
  - rewrite (validate_channel_resolved _ _ _ _ _ _ _ _ _ _ _ Hm Hc).
    rewrite Howner, Hfirst. unfold bind, getattr. rewrite Hflag.
    unfold ret. now rewrite Hdeny.
  - now rewrite (resolved_trace _ _ _ _ _ _ _ _ _ _ Hm Hc).
Qed.

(** C5, as amended: for a member who is not the owner, when the first
    overwrite of the channel's list whose target is the user allows the
    permission and does not deny it, [validate_channel] succeeds with the
    member, the user and the channel, whatever the member's roles and the
    guild's permissions are: neither is read. *)
Theorem overwrite_allow_granted token guild_id channel_id permission
    stop_bots w member user w1 channel w2 overwrite mask :
  validate_member token guild_id stop_bots w = (inr (member, user), w1) ->
  GuildChannel_get channel_id guild_id w1 = (inr channel, w2) ->
  member_owner member = false ->
  first_overwrite (user_id user) (permission_overwrites channel)
    = Some overwrite ->
  flag_value permission = Some mask ->
  has_flag (overwrite_allow overwrite) mask = true ->
  has_flag (overwrite_deny overwrite) mask = false ->
  validate_channel token guild_id channel_id permission stop_bots w
    = (inr (member, user, channel), w2)
  /\ trace w2 = trace w ++ [QMember (user_id user) guild_id;
                            QGuildChannel channel_id guild_id].
Proof.
  intros Hm Hc Howner Hfirst Hflag Hallow Hdeny. split.
  - rewrite (validate_channel_resolved _ _ _ _ _ _ _ _ _ _ _ Hm Hc).
    rewrite Howner, Hfirst. unfold bind, getattr. rewrite Hflag.
    unfold ret. now rewrite Hdeny, Hallow.
  - now rewrite (resolved_trace _ _ _ _ _ _ _ _ _ _ Hm Hc).
Qed.

(** C8: for a member flagged as owner, once the channel lookup succeeds
    [validate_channel] returns the member, the user and the channel for
    every permission name, whatever the overwrites, the roles and the
    guild's permissions are; nothing is read after the channel. *)
Theorem owner_granted token guild_id channel_id permission stop_bots w
    member user w1 channel w2 :
  validate_member token guild_id stop_bots w = (inr (member, user), w1) ->
  GuildChannel_get channel_id guild_id w1 = (inr channel, w2) ->
  member_owner member = true ->
  validate_channel token guild_id channel_id permission stop_bots w
    = (inr (member, user, channel), w2).
Proof.
  intros Hm Hc Howner.
  rewrite (validate_channel_resolved _ _ _ _ _ _ _ _ _ _ _ Hm Hc).
  now rewrite Howner.
Qed.

(** C7: for a member who is not the owner and has no overwrite on the
    channel, when the baseline (the first role's permissions, the guild's
    for a member without roles) has the administrator bit,
    [validate_channel] succeeds for every permission name; the name is not
    looked up, so this holds for names no flag carries too. *)
Theorem administrator_granted token guild_id channel_id stop_bots w
    member user w1 channel w2 permissions w3 :
  validate_member token guild_id stop_bots w = (inr (member, user), w1) ->
  GuildChannel_get channel_id guild_id w1 = (inr channel, w2) ->
  member_owner member = false ->
  first_overwrite (user_id user) (permission_overwrites channel) = None ->
  baseline_permissions member guild_id w2 = (inr permissions, w3) ->
  has_flag permissions administator = true ->
  forall permission,
    validate_channel token guild_id channel_id permission stop_bots w
      = (inr (member, user, channel), w3).
Proof.
  intros Hm Hc Howner Hfirst Hbase Hadmin permission.
  rewrite (validate_channel_resolved _ _ _ _ _ _ _ _ _ _ _ Hm Hc).
  rewrite Howner, Hfirst. unfold bind at 1. rewrite Hbase.
  now rewrite Hadmin.
Qed.

(** C6: for a member who is not the owner, has no overwrite on the channel
    and no roles, [validate_channel] succeeds exactly when the guild's
    permissions include the permission or the administrator bit; the
    queries sent are the member, the channel and the guild, no role. *)
Theorem roleless_guild_default token guild_id channel_id permission
    stop_bots w member user w1 channel w2 guild w3 :
  validate_member token guild_id stop_bots w = (inr (member, user), w1) ->
  GuildChannel_get channel_id guild_id w1 = (inr channel, w2) ->
  member_owner member = false ->
  first_overwrite (user_id user) (permission_overwrites channel) = None ->
  member_roles member = [] ->
  Guild_get guild_id w2 = (inr guild, w3) ->
  let run :=
    validate_channel token guild_id channel_id permission stop_bots w in
  (fst run = inr (member, user, channel) <->
     has_flag (guild_permissions guild) administator = true
     \/ exists mask, flag_value permission = Some mask
                     /\ has_flag (guild_permissions guild) mask = true)
  /\ (forall e, fst run = inl e -> e = Forbidden \/ e = AttributeError permission)
  /\ trace (snd run) = trace w ++ [QMember (user_id user) guild_id;
                                   QGuildChannel channel_id guild_id;
                                   QGuild guild_id].
Proof.
  intros Hm Hc Howner Hfirst Hroles Hg run.
  assert (Hrun : run =
    (if has_flag (guild_permissions guild) administator
     then inr (member, user, channel)
     else match flag_value permission with
          | Some mask =>
              if has_flag (guild_permissions guild) mask
              then inr (member, user, channel) else inl Forbidden
          | None => inl (AttributeError permission)
          end, w3)).
  { unfold run.
    rewrite (validate_channel_resolved _ _ _ _ _ _ _ _ _ _ _ Hm Hc).
    rewrite Howner, Hfirst. unfold baseline_permissions. rewrite Hroles.
    unfold bind at 1 2. rewrite Hg. unfold ret at 1. cbv beta iota.
    destruct (has_flag (guild_permissions guild) administator); [reflexivity |].
    unfold bind, getattr.
    destruct (flag_value permission) as [mask |]; [| reflexivity].
    unfold ret. now destruct (has_flag (guild_permissions guild) mask). }
  rewrite Hrun. cbn [fst snd]. repeat split.
  - destruct (has_flag (guild_permissions guild) administator); [now left |].
    destruct (flag_value permission) as [mask |]; [| discriminate].
    destruct (has_flag (guild_permissions guild) mask) eqn:E; [| discriminate].
    intros _. right. now exists mask.
  - intros [Ha | (mask & Hf & Hp)].
    + now rewrite Ha.
    + destruct (has_flag (guild_permissions guild) administator); [reflexivity |].
      now rewrite Hf, Hp.
  - intros e.
    destruct (has_flag (guild_permissions guild) administator); [discriminate |].
    destruct (flag_value permission) as [mask |].
    + destruct (has_flag (guild_permissions guild) mask); [discriminate |].
      intros [= <-]. now left.
    + intros [= <-]. now right.
  - unfold Guild_get in Hg. rewrite objects_get_run in Hg.
    injection Hg as _ <-.
    rewrite (resolved_trace _ _ _ _ _ _ _ _ _ _ Hm Hc).
    unfold after; simpl. now rewrite <- app_assoc.
Qed.

(** ** Channel positions *)

Lemma fold_max_shift a x l :
  fold_right Z.max (Z.max a x) l = Z.max x (fold_right Z.max a l).
Proof.
  induction l as [| y l IH]; simpl.
  - apply Z.max_comm.
  - rewrite IH. lia.
Qed.

Lemma highest_position_from a channels :
  fold_left
    (fun highest_pos channel =>
       if channel_position channel >? highest_pos
       then channel_position channel else highest_pos)
    channels a
  = fold_right Z.max a (map channel_position channels).
Proof.
  revert a. induction channels as [| c cs IH]; intros a; simpl.
  - reflexivity.
  - rewrite IH.
    replace (if channel_position c >? a then channel_position c else a)
      with (Z.max a (channel_position c))
      by (destruct (Z.gtb_spec (channel_position c) a); lia).
    apply fold_max_shift.
Qed.

(** The loop computes the largest of [0] and the positions. *)
Lemma highest_position_max channels :
  highest_position channels = max_position (map channel_position channels).
Proof. apply highest_position_from. Qed.

Lemma max_position_bounds l :
  0 <= max_position l /\ forall x, In x l -> x <= max_position l.
Proof.
  induction l as [| y l [IH0 IH]]; simpl.
  - split; [lia | contradiction].
  - split; [lia |]. intros x [<- | Hx]; [lia |]. specialize (IH x Hx). lia.
Qed.

Lemma max_position_reached l :
  max_position l = 0 \/ In (max_position l) l.
Proof.
  induction l as [| y l IH]; simpl.
  - now left.
  - destruct (Z.max_spec y (max_position l)) as [[_ ->] | [_ ->]].
    + destruct IH as [-> | IH]; [now left | right; now right].
    + right; now left.
Qed.

(** Where the positions have a maximum that is not negative, it is the
    value the loop computes. *)
Lemma max_position_is_maximum m l :
  is_maximum m l -> 0 <= m -> max_position l = m.
Proof.
  intros [Hin Hle] Hm.
  destruct (max_position_bounds l) as [H0 Hub].
  specialize (Hub m Hin).
  destruct (max_position_reached l) as [E | Hr]; [lia |].
  specialize (Hle _ Hr). lia.
Qed.

(** C9, as amended: [verify_channel_position] succeeds exactly when the
    position is one more than the largest of [0] and the positions of the
    guild's channels (so [1] for a guild without channels), raises
    [BadData] otherwise, and leaves the store as it was, having sent the
    one query for the guild's channels. *)
Theorem position_is_next pos guild_id w :
  let run := verify_channel_position pos guild_id w in
  let next := max_position (guild_positions (db w) guild_id) + 1 in
  (fst run = inr tt <-> pos = next)
  /\ (fst run = inl BadData <-> pos <> next)
  /\ snd run = after w [QGuildChannels guild_id].
Proof.
  intros run next.
  assert (Hrun : run =
    (if negb (pos =? next) then inl BadData else inr tt,
     after w [QGuildChannels guild_id])).
  { unfold run, verify_channel_position, bind, GuildChannel_all.
    rewrite objects_all_run. rewrite highest_position_max.
    fold (guild_positions (db w) guild_id). fold next.
    now destruct (pos =? next). }
  rewrite Hrun. cbn [fst snd].
  destruct (Z.eqb_spec pos next) as [E | N]; cbn [negb]; repeat split;
    try discriminate; try congruence.
Qed.

(** ** Message buckets *)

Lemma range_bounds n b : In b (range n) -> 0 <= b < n.
Proof.
  unfold range. rewrite in_map_iff. intros (k & <- & Hk).
  apply in_seq in Hk. lia.
Qed.

Lemma range_nonpositive n : n <= 0 -> range n = [].
Proof.
  intros Hn. unfold range.
  now replace (Z.to_nat n) with 0%nat by lia.
Qed.

Lemma Message_bucket_run channel_id bucket limit w :
  snd (Message_bucket channel_id bucket limit w)
    = after w [QMessages channel_id bucket limit]
  /\ exists msgs, fst (Message_bucket channel_id bucket limit w) = inr msgs.
Proof.
  unfold Message_bucket, bind. rewrite objects_all_run.
  split; [reflexivity | eexists; reflexivity].
Qed.

(** Every query of the listing loop addresses one of the buckets the loop
    is given. *)
Lemma collect_buckets_queries channel_id limit buckets :
  forall collected_messages w,
  exists qs,
    snd (collect_buckets channel_id limit buckets collected_messages w)
      = after w qs
    /\ Forall (fun q => exists b, query_bucket q = Some b /\ In b buckets) qs.
Proof.
  induction buckets as [| bucket rest IH]; intros collected_messages w.
  - exists []. split; [| constructor].
    unfold after; simpl. rewrite app_nil_r. now destruct w.
  - cbn [collect_buckets]. unfold bind at 1.
    destruct (Message_bucket_run channel_id bucket limit w) as [Hw [msgs Hr]].
    destruct (Message_bucket channel_id bucket limit w) as [r w'].
    cbn [fst snd] in Hw, Hr. subst r w'.
    destruct (Z.of_nat (List.length (collected_messages ++ [msgs])) >? limit).
    + exists [QMessages channel_id bucket limit]. split; [reflexivity |].
      constructor; [| constructor]. exists bucket. split; [reflexivity | now left].
    + destruct (IH (collected_messages ++ [msgs])
                  (after w [QMessages channel_id bucket limit]))
        as (qs & Hqs & Hall).
      exists (QMessages channel_id bucket limit :: qs). split.
      * rewrite Hqs. apply after_after.
      * constructor.
        -- exists bucket. split; [reflexivity | now left].
        -- eapply Forall_impl; [| exact Hall].
           intros q (b & Hb & Hin). exists b. split; [exact Hb | now right].
Qed.

(** Every query of the point lookup addresses one of the buckets the loop
    is given. *)
Lemma lookup_buckets_queries message_id channel_id buckets :
  forall w,
  exists qs,
    snd (lookup_buckets message_id channel_id buckets w) = after w qs
    /\ Forall (fun q => exists b, query_bucket q = Some b /\ In b buckets) qs.
Proof.
  induction buckets as [| bucket rest IH]; intros w.
  - exists []. split; [| constructor].
    unfold after; simpl. rewrite app_nil_r. now destruct w.
  - cbn [lookup_buckets]. unfold try_except, bind, Message_get.
    rewrite objects_get_run.
    destruct (get_row _) as [e | msg].
    + destruct (IH (after w [QMessage message_id channel_id bucket]))
        as (qs & Hqs & Hall).
      exists (QMessage message_id channel_id bucket :: qs). split.
      * rewrite Hqs. apply after_after.
      * constructor.
        -- exists bucket. split; [reflexivity | now left].
        -- eapply Forall_impl; [| exact Hall].
           intros q (b & Hb & Hin). exists b. split; [exact Hb | now right].
    + exists [QMessage message_id channel_id bucket]. split; [reflexivity |].
      constructor; [| constructor]. exists bucket. split; [reflexivity | now left].
Qed.

(** C10: on both paths [search_messages] sends message queries only, each
    for a bucket from [0] to [get_bucket channel_id - 1]; the bucket
    [get_bucket channel_id] itself is never queried.  Where
    [get_bucket channel_id] is [0], no query is sent: the listing is empty
    and the lookup yields [None]. *)
Theorem search_messages_buckets channel_id message_id limit w :
  let run := search_messages channel_id message_id limit w in
  exists qs,
    snd run = after w qs
    /\ Forall (fun q => exists b, query_bucket q = Some b
                                  /\ 0 <= b < get_bucket channel_id) qs
    /\ (get_bucket channel_id = 0 ->
        qs = []
        /\ fst run = inr (match message_id with
                          | None => Listing []
                          | Some _ => Absent
                          end)).
Proof.
  intros run. unfold run, search_messages.
  destruct message_id as [message_id |].
  - destruct (lookup_buckets_queries message_id channel_id
                (range (get_bucket channel_id)) w) as (qs & Hqs & Hall).
    exists qs. split; [exact Hqs |]. split.
    + eapply Forall_impl; [| exact Hall].
      intros q (b & Hb & Hin). exists b. split; [exact Hb |].
      now apply range_bounds.
    + intros E. rewrite E in *. cbn in Hqs |- *.
      split; [| reflexivity].
      apply (f_equal trace) in Hqs. cbn in Hqs.
      rewrite <- (app_nil_r (trace w)) in Hqs at 1.
      apply app_inv_head in Hqs. now symmetry.
  - unfold bind.
    destruct (collect_buckets_queries channel_id limit
                (range (get_bucket channel_id)) [] w) as (qs & Hqs & Hall).
    destruct (collect_buckets channel_id limit
                (range (get_bucket channel_id)) [] w) as [[e | c] w'] eqn:Hrun;
      cbn [snd] in Hqs; subst w'.
    + exists qs. split; [reflexivity |]. split.
      * eapply Forall_impl; [| exact Hall].
        intros q (b & Hb & Hin). exists b. split; [exact Hb |].
        now apply range_bounds.
      * intros E. rewrite E in Hrun. cbn in Hrun. discriminate.
    + exists qs. split; [reflexivity |]. split.
      * eapply Forall_impl; [| exact Hall].
        intros q (b & Hb & Hin). exists b. split; [exact Hb |].
        now apply range_bounds.
      * intros E. rewrite E in Hrun. cbn in Hrun.
        unfold ret in Hrun. injection Hrun as <- Hqs.
        split; [| reflexivity].
        apply (f_equal trace) in Hqs. cbn in Hqs.
        rewrite <- (app_nil_r (trace w)) in Hqs at 1.
        apply app_inv_head in Hqs. now symmetry.
Qed.

(** *** The point lookup, bucket by bucket *)

Lemma filter_andb {A} (p q : A -> bool) l :
  filter (fun x => p x && q x) l = filter q (filter p l).
Proof.
  induction l as [| x l IH]; simpl; [reflexivity |].
  destruct (p x); simpl; [| exact IH].
  destruct (q x); now rewrite IH.
Qed.

Lemma Message_get_run message_id channel_id bucket w :
  Message_get message_id channel_id bucket w
  = (get_row (filter (fun m => message_bucket_id m =? bucket)
                (stored (db w) message_id channel_id)),
     after w [QMessage message_id channel_id bucket]).
Proof.
  unfold Message_get. rewrite objects_get_run. unfold stored.
  now rewrite <- filter_andb.
Qed.

(** An identifier the channel does not hold is absent, whatever buckets
    are scanned. *)
Lemma lookup_buckets_absent message_id channel_id buckets :
  forall w,
  stored (db w) message_id channel_id = [] ->
  fst (lookup_buckets message_id channel_id buckets w) = inr Absent.
Proof.
  induction buckets as [| bucket rest IH]; intros w Hs; [reflexivity |].
  cbn [lookup_buckets]. unfold try_except, bind.
  rewrite Message_get_run, Hs. cbn [filter get_row].
  now apply IH.
Qed.

(** A message stored once for the channel is returned when its bucket is
    among the scanned ones. *)
Lemma lookup_buckets_found message_id channel_id msg buckets :
  forall w,
  stored (db w) message_id channel_id = [msg] ->
  In (message_bucket_id msg) buckets ->
  fst (lookup_buckets message_id channel_id buckets w) = inr (Found msg).
Proof.
  induction buckets as [| bucket rest IH]; intros w Hs Hin; [contradiction |].
  cbn [lookup_buckets]. unfold try_except, bind.
  rewrite Message_get_run, Hs. cbn [filter].
  destruct (Z.eqb_spec (message_bucket_id msg) bucket) as [E | N].
  - reflexivity.
  - cbn [get_row]. apply IH; [exact Hs |].
    destruct Hin as [E | Hin]; [congruence | exact Hin].
Qed.

(** A message stored once for the channel is missed when its bucket is
    not among the scanned ones. *)
Lemma lookup_buckets_missed message_id channel_id msg buckets :
  forall w,
  stored (db w) message_id channel_id = [msg] ->
  ~ In (message_bucket_id msg) buckets ->
  fst (lookup_buckets message_id channel_id buckets w) = inr Absent.
Proof.
  induction buckets as [| bucket rest IH]; intros w Hs Hin; [reflexivity |].
  cbn [lookup_buckets]. unfold try_except, bind.
  rewrite Message_get_run, Hs. cbn [filter].
  destruct (Z.eqb_spec (message_bucket_id msg) bucket) as [E | N].
  - exfalso. apply Hin. now left.
  - cbn [get_row]. apply IH; [exact Hs |].
    intros Hr. apply Hin. now right.
Qed.

Lemma range_complete n b : 0 <= b < n -> In b (range n).
Proof.
  intros Hb. unfold range. apply in_map_iff.
  exists (Z.to_nat b). split; [lia |]. apply in_seq. lia.
Qed.

(** What holds of the lookup on the code: absent for an identifier the
    channel does not hold, the stored message for one whose bucket is
    below [get_bucket channel_id], absent again for one whose bucket is
    [get_bucket channel_id] or above. *)
Lemma search_messages_lookup channel_id message_id limit w :
  let result := fst (search_messages channel_id (Some message_id) limit w) in
  (stored (db w) message_id channel_id = [] -> result = inr Absent)
  /\ (forall msg,
        stored (db w) message_id channel_id = [msg] ->
        0 <= message_bucket_id msg < get_bucket channel_id ->
        result = inr (Found msg))
  /\ (forall msg,
        stored (db w) message_id channel_id = [msg] ->
        get_bucket channel_id <= message_bucket_id msg ->
        result = inr Absent).
Proof.
  cbn. repeat split.
  - apply lookup_buckets_absent.
  - intros msg Hs Hb. apply lookup_buckets_found; [exact Hs |].
    now apply range_complete.
  - intros msg Hs Hb. eapply lookup_buckets_missed; [exact Hs |].
    intros Hin. apply range_bounds in Hin. lia.
Qed.

End Properties.

(** ** Further properties of the session and member checks *)

Section Sessions.

Context `{Collaborators}.

Lemma get_row_inr {R} (p : R -> bool) rows r :
  get_row (filter p rows) = inr r -> In r rows /\ p r = true.
Proof.
  intros E. assert (Hin : In r (filter p rows)).
  { destruct (filter p rows) as [| x [| y l]]; try discriminate.
    injection E as ->. now left. }
  now apply filter_In in Hin.
Qed.

Lemma validate_user_run token stop_bots w :
  validate_user token stop_bots w
  = (match verify_token token with
     | inl e => inl e
     | inr user =>
         if stop_bots && user_bot user then inl Forbidden else inr user
     end, w).
Proof.
  unfold validate_user, valid_session, bind, lift.
  destruct (verify_token token) as [e | user]; [reflexivity |].
  now destruct (stop_bots && user_bot user).
Qed.

Lemma validate_member_run token guild_id stop_bots w :
  validate_member token guild_id stop_bots w
  = match verify_token token with
    | inl e => (inl e, w)
    | inr user =>
        (match memberships (db w) (user_id user) guild_id with
         | [] => inl Forbidden
         | [member] => inr (member, user)
         | _ :: _ :: _ => inl MultipleObjectsReturned
         end, after w [QMember (user_id user) guild_id])
    end.
Proof.
  unfold validate_member, bind at 1. rewrite validate_user_run.
  destruct (verify_token token) as [e | user]; [reflexivity |].
  cbn [andb]. unfold bind, try_except, Member_get.
  rewrite objects_get_run. fold (memberships (db w) (user_id user) guild_id).
  now destruct (memberships (db w) (user_id user) guild_id) as [| m [| m' l]].
Qed.

(** X1: [validate_user] returns exactly the user the verifier gives for the
    token, and with [stop_bots] only a user that is not a bot; it sends no
    query. *)
Theorem validate_user_accepts token stop_bots w user w' :
  validate_user token stop_bots w = (inr user, w') <->
  verify_token token = inr user
  /\ (stop_bots = true -> user_bot user = false)
  /\ w' = w.
Proof.
  rewrite validate_user_run. split.
  - destruct (verify_token token) as [e | u]; [discriminate |].
    destruct stop_bots, (user_bot u) eqn:Eb; cbn [andb];
      try discriminate; intros [= <- <-]; repeat split; auto; discriminate.
  - intros (-> & Hb & ->).
    destruct stop_bots; cbn [andb]; [| reflexivity].
    now rewrite Hb.
Qed.

(** X2: a verified user without a membership row for the guild is refused
    with [Forbidden], not [NotFound] or [DoesNotExist], after the one
    membership query. *)
Theorem validate_member_non_member token guild_id stop_bots w user :
  verify_token token = inr user ->
  memberships (db w) (user_id user) guild_id = [] ->
  validate_member token guild_id stop_bots w
    = (inl Forbidden, after w [QMember (user_id user) guild_id]).
Proof.
  intros Ht Hm. rewrite validate_member_run, Ht. now rewrite Hm.
Qed.

(** X3: what [validate_member] returns belongs together: the user is the
    verifier's for the token, the member is a row of the store for that
    user and that guild, and one membership query was sent. *)
Theorem validate_member_consistent token guild_id stop_bots w member user w1 :
  validate_member token guild_id stop_bots w = (inr (member, user), w1) ->
  verify_token token = inr user
  /\ In member (members (db w))
  /\ member_id member = user_id user
  /\ member_guild_id member = guild_id
  /\ w1 = after w [QMember (user_id user) guild_id].
Proof.
  rewrite validate_member_run.
  destruct (verify_token token) as [e | u]; [discriminate |].
  destruct (memberships (db w) (user_id u) guild_id) as [| m [| m' l]] eqn:Em;
    try discriminate.
  intros [= <- <- <-].
  assert (Hin : In m (memberships (db w) (user_id u) guild_id))
    by (rewrite Em; now left).
  apply filter_In in Hin as [Hin Hp].
  apply andb_true_iff in Hp as [H1 H2].
  apply Z.eqb_eq in H1, H2. now repeat split.
Qed.

(** X4: [validate_member] fails in three ways only: with the verifier's
    error, before any query; with [Forbidden] when no membership row
    matches; with [MultipleObjectsReturned] when several do. *)
Theorem validate_member_failures token guild_id stop_bots w e w1 :
  validate_member token guild_id stop_bots w = (inl e, w1) ->
  (verify_token token = inl e /\ w1 = w)
  \/ exists user,
       verify_token token = inr user
       /\ w1 = after w [QMember (user_id user) guild_id]
       /\ ((e = Forbidden
            /\ memberships (db w) (user_id user) guild_id = [])
           \/ (e = MultipleObjectsReturned
               /\ (2 <= List.length
                          (memberships (db w) (user_id user) guild_id))%nat)).
Proof.
  rewrite validate_member_run.
  destruct (verify_token token) as [e' | u].
  - intros [= <- <-]. now left.
  - intros E. right. exists u. revert E.
    destruct (memberships (db w) (user_id u) guild_id) as [| m [| m' l]];
      try discriminate; intros [= <- <-]; repeat split; auto.
    right. split; [reflexivity |]. simpl. lia.
Qed.

(** X5: [validate_admin] returns the verifier's user exactly when the
    user's flags include [staff]; a verified user without it is refused
    with [Forbidden]; no query is sent and bots are not stopped. *)
Theorem validate_admin_outcome token w :
  validate_admin token w
  = (match verify_token token with
     | inl e => inl e
     | inr admin =>
         if has_flag (user_flags admin) staff then inr admin
         else inl Forbidden
     end, w)
  /\ (forall admin w',
        validate_admin token w = (inr admin, w') ->
        verify_token token = inr admin
        /\ Z.land (user_flags admin) staff = staff).
Proof.
  assert (Hrun : validate_admin token w
    = (match verify_token token with
       | inl e => inl e
       | inr admin =>
           if has_flag (user_flags admin) staff then inr admin
           else inl Forbidden
       end, w)).
  { unfold validate_admin, bind. rewrite validate_user_run.
    destruct (verify_token token) as [e | u]; [reflexivity |].
    cbn [andb]. now destruct (has_flag (user_flags u) staff). }
  split; [exact Hrun |].
  intros admin w'. rewrite Hrun.
  destruct (verify_token token) as [e | u]; [discriminate |].
  destruct (has_flag (user_flags u) staff) eqn:Es; [| discriminate].
  intros [= <- <-]. split; [reflexivity |]. now apply Z.eqb_eq.
Qed.

End Sessions.

(** ** Further properties of the channel permission check *)

Section Channels.

Context `{Collaborators}.

Lemma GuildChannel_get_run channel_id guild_id w :
  GuildChannel_get channel_id guild_id w
  = (get_row (channels_at (db w) channel_id guild_id),
     after w [QGuildChannel channel_id guild_id]).
Proof. unfold GuildChannel_get. now rewrite objects_get_run. Qed.

Lemma getattr_run value permission w :
  getattr value permission w
  = (match flag_value permission with
     | Some mask => inr (has_flag value mask)
     | None => inl (AttributeError permission)
     end, w).
Proof. unfold getattr. now destruct (flag_value permission). Qed.

(** X6: for a resolved member, a channel that has no row for the guild
    gives [NotFound]; the owner flag is read only after the channel, so the
    owner gets [NotFound] too. *)
Theorem validate_channel_missing_channel token guild_id channel_id
    permission stop_bots w member user w1 :
  validate_member token guild_id stop_bots w = (inr (member, user), w1) ->
  channels_at (db w) channel_id guild_id = [] ->
  validate_channel token guild_id channel_id permission stop_bots w
    = (inl NotFound,
       after w [QMember (user_id user) guild_id;
                QGuildChannel channel_id guild_id]).
Proof.
  intros Hm Hc. unfold validate_channel, bind at 1 2, try_except.
  rewrite Hm. cbv beta iota. rewrite GuildChannel_get_run.
  apply validate_member_inv in Hm as [_ ->]. cbn [db after].
  rewrite Hc. cbn [get_row on_DoesNotExist]. unfold raise.
  now rewrite after_after.
Qed.

(** X7: when the member is not resolved, [validate_channel] fails with
    the error of [validate_member] and stops there: the channel is not
    looked up. *)
Theorem validate_channel_member_failure token guild_id channel_id
    permission stop_bots w e w1 :
  validate_member token guild_id stop_bots w = (inl e, w1) ->
  validate_channel token guild_id channel_id permission stop_bots w
    = (inl e, w1)
  /\ (forall q, In q (trace w1) ->
                In q (trace w) \/ exists uid, q = QMember uid guild_id).
Proof.
  intros Hm. split.
  - unfold validate_channel, bind at 1. now rewrite Hm.
  - rewrite validate_member_run in Hm.
    destruct (verify_token token) as [e' | user].
    + injection Hm as _ <-. intros q Hq. now left.
    + injection Hm as _ <-. intros q Hq.
      cbn [trace after] in Hq. apply in_app_or in Hq as [Hq | [<- | []]].
      * now left.
      * right. now exists (user_id user).
Qed.

(** X8: for a member who is not the owner and has an overwrite on the
    channel, the first such overwrite alone decides: access is granted
    exactly when the permission is a declared flag that the overwrite
    allows and does not deny.  The administrator bit plays no part and
    neither the guild nor a role is read. *)
Theorem overwrite_decides token guild_id channel_id permission stop_bots w
    member user w1 channel w2 overwrite :
  validate_member token guild_id stop_bots w = (inr (member, user), w1) ->
  GuildChannel_get channel_id guild_id w1 = (inr channel, w2) ->
  member_owner member = false ->
  first_overwrite (user_id user) (permission_overwrites channel)
    = Some overwrite ->
  let run :=
    validate_channel token guild_id channel_id permission stop_bots w in
  (fst run = inr (member, user, channel) <->
     exists mask, flag_value permission = Some mask
                  /\ has_flag (overwrite_allow overwrite) mask = true
                  /\ has_flag (overwrite_deny overwrite) mask = false)
  /\ (forall e, fst run = inl e ->
                e = Forbidden \/ e = AttributeError permission)
  /\ snd run = w2.
Proof.
  intros Hm Hc Howner Hfirst run.
  assert (Hrun : run =
    (match flag_value permission with
     | Some mask =>
         if has_flag (overwrite_deny overwrite) mask then inl Forbidden
         else if has_flag (overwrite_allow overwrite) mask
              then inr (member, user, channel) else inl Forbidden
     | None => inl (AttributeError permission)
     end, w2)).
  { unfold run.
    rewrite (validate_channel_resolved _ _ _ _ _ _ _ _ _ _ _ Hm Hc).
    rewrite Howner, Hfirst. unfold bind at 1. rewrite getattr_run.
    destruct (flag_value permission) as [mask |] eqn:Ef; [| reflexivity].
    destruct (has_flag (overwrite_deny overwrite) mask); [reflexivity |].
    unfold bind. rewrite getattr_run, Ef.
    now destruct (has_flag (overwrite_allow overwrite) mask). }
  rewrite Hrun. cbn [fst snd]. repeat split.
  - destruct (flag_value permission) as [mask |]; [| discriminate].
    destruct (has_flag (overwrite_deny overwrite) mask) eqn:Ed;
      [discriminate |].
    destruct (has_flag (overwrite_allow overwrite) mask) eqn:Ea;
      [| discriminate].
    intros _. now exists mask.
  - intros (mask & -> & -> & ->). reflexivity.
  - intros e. destruct (flag_value permission) as [mask |].
    + destruct (has_flag (overwrite_deny overwrite) mask).
      * intros [= <-]. now left.
      * destruct (has_flag (overwrite_allow overwrite) mask);
          [discriminate |]. intros [= <-]. now left.
    + intros [= <-]. now right.
Qed.

(** X9: for a member who is not the owner, has no overwrite on the channel
    and has roles, the first role alone decides: access is granted exactly
    when that role's permissions include the administrator bit or the
    permission.  The other roles are not read, and neither is the guild. *)
Theorem first_role_decides token guild_id channel_id permission stop_bots w
    member user w1 channel w2 role_id other_roles role w3 :
  validate_member token guild_id stop_bots w = (inr (member, user), w1) ->
  GuildChannel_get channel_id guild_id w1 = (inr channel, w2) ->
  member_owner member = false ->
  first_overwrite (user_id user) (permission_overwrites channel) = None ->
  member_roles member = role_id :: other_roles ->
  Role_get role_id w2 = (inr role, w3) ->
  let run :=
    validate_channel token guild_id channel_id permission stop_bots w in
  (fst run = inr (member, user, channel) <->
     has_flag (role_permissions role) administator = true
     \/ exists mask, flag_value permission = Some mask
                     /\ has_flag (role_permissions role) mask = true)
  /\ trace (snd run) = trace w ++ [QMember (user_id user) guild_id;
                                   QGuildChannel channel_id guild_id;
                                   QRole role_id].
Proof.
  intros Hm Hc Howner Hfirst Hroles Hr run.
  assert (Hrun : run =
    (if has_flag (role_permissions role) administator
     then inr (member, user, channel)
     else match flag_value permission with
          | Some mask =>
              if has_flag (role_permissions role) mask
              then inr (member, user, channel) else inl Forbidden
          | None => inl (AttributeError permission)
          end, w3)).
  { unfold run.
    rewrite (validate_channel_resolved _ _ _ _ _ _ _ _ _ _ _ Hm Hc).
    rewrite Howner, Hfirst. unfold baseline_permissions. rewrite Hroles.
    unfold bind at 1 2. rewrite Hr. unfold ret at 1. cbv beta iota.
    destruct (has_flag (role_permissions role) administator); [reflexivity |].
    unfold bind. rewrite getattr_run.
    destruct (flag_value permission) as [mask |]; [| reflexivity].
    now destruct (has_flag (role_permissions role) mask). }
  rewrite Hrun. cbn [fst snd]. repeat split.
  - destruct (has_flag (role_permissions role) administator); [now left |].
    destruct (flag_value permission) as [mask |]; [| discriminate].
    destruct (has_flag (role_permissions role) mask) eqn:E; [| discriminate].
    intros _. right. now exists mask.
  - intros [Ha | (mask & Hf & Hp)].
    + now rewrite Ha.
    + destruct (has_flag (role_permissions role) administator);
        [reflexivity |]. now rewrite Hf, Hp.
  - unfold Role_get in Hr. rewrite objects_get_run in Hr.
    injection Hr as _ <-.
    rewrite (resolved_trace _ _ _ _ _ _ _ _ _ _ Hm Hc).
    unfold after; simpl. now rewrite <- app_assoc.
Qed.

(** X10: when the first role of such a member has no row, the lookup error
    [DoesNotExist] leaves [validate_channel] as it is: it is not turned
    into [Forbidden] or [NotFound], and no other role is tried. *)
Theorem missing_role_propagates token guild_id channel_id permission
    stop_bots w member user w1 channel w2 role_id other_roles :
  validate_member token guild_id stop_bots w = (inr (member, user), w1) ->
  GuildChannel_get channel_id guild_id w1 = (inr channel, w2) ->
  member_owner member = false ->
  first_overwrite (user_id user) (permission_overwrites channel) = None ->
  member_roles member = role_id :: other_roles ->
  filter (fun r => role_id_of r =? role_id) (roles (db w)) = [] ->
  validate_channel token guild_id channel_id permission stop_bots w
    = (inl DoesNotExist,
       after w [QMember (user_id user) guild_id;
                QGuildChannel channel_id guild_id;
                QRole role_id]).
Proof.
  intros Hm Hc Howner Hfirst Hroles Hnone.
  rewrite (validate_channel_resolved _ _ _ _ _ _ _ _ _ _ _ Hm Hc).
  rewrite Howner, Hfirst. unfold baseline_permissions. rewrite Hroles.
  unfold bind, Role_get. rewrite objects_get_run.
  rewrite (resolved_trace _ _ _ _ _ _ _ _ _ _ Hm Hc). cbn [db after].
  rewrite Hnone. cbn [get_row]. f_equal.
  unfold after; simpl. now rewrite <- app_assoc.
Qed.

(** X13: where no two overwrites of a channel share a target, as the data
    model expects, any overwrite of the user is the one the scan finds. *)
Theorem first_overwrite_unique uid overwrites overwrite :
  NoDup (map overwrite_id overwrites) ->
  In overwrite overwrites ->
  overwrite_id overwrite = uid ->
  first_overwrite uid overwrites = Some overwrite.
Proof.
  induction overwrites as [| o os IH]; intros Hnd Hin Hid; [contradiction |].
  simpl in Hnd. inversion Hnd as [| x l Hnotin Hnd']; subst x l.
  simpl. destruct Hin as [-> | Hin].
  - now rewrite Hid, Z.eqb_refl.
  - destruct (Z.eqb_spec (overwrite_id o) uid) as [E | N].
    + exfalso. apply Hnotin. rewrite E, <- Hid. now apply in_map.
    + now apply IH.
Qed.

Lemma after_nil w : after w [] = w.
Proof. unfold after. rewrite app_nil_r. now destruct w. Qed.

Lemma validate_member_world token guild_id stop_bots w r w1 :
  validate_member token guild_id stop_bots w = (r, w1) ->
  w1 = after w [] \/ exists uid, w1 = after w [QMember uid guild_id].
Proof.
  rewrite validate_member_run.
  destruct (verify_token token) as [e | user]; intros [= _ <-].
  - left. now rewrite after_nil.
  - right. now exists (user_id user).
Qed.

(** The three ways a run of [validate_channel] goes: the member is not
    resolved, the channel is not, or the decision of lines 76-114 is
    taken. *)
Lemma validate_channel_cases token guild_id channel_id permission
    stop_bots w :
  let run :=
    validate_channel token guild_id channel_id permission stop_bots w in
  (exists e w1,
      validate_member token guild_id stop_bots w = (inl e, w1)
      /\ run = (inl e, w1))
  \/ (exists member user w1 e,
        validate_member token guild_id stop_bots w = (inr (member, user), w1)
        /\ run = (inl e, after w1 [QGuildChannel channel_id guild_id]))
  \/ (exists member user w1 channel,
        validate_member token guild_id stop_bots w = (inr (member, user), w1)
        /\ get_row (channels_at (db w1) channel_id guild_id) = inr channel
        /\ run = access_decision member user channel guild_id permission
                   (after w1 [QGuildChannel channel_id guild_id])).
Proof.
  intros run.
  destruct (validate_member token guild_id stop_bots w)
    as [[e | [member user]] w1] eqn:Hm.
  - left. exists e, w1. split; [reflexivity |].
    unfold run, validate_channel, bind at 1. now rewrite Hm.
  - right.
    destruct (get_row (channels_at (db w1) channel_id guild_id))
      as [e | channel] eqn:Hc.
    + left. exists member, user, w1.
      exists (match e with DoesNotExist => NotFound | _ => e end).
      split; [reflexivity |].
      unfold run, validate_channel, bind at 1 2, try_except.
      rewrite Hm. cbv beta iota. rewrite GuildChannel_get_run, Hc.
      now destruct e.
    + right. exists member, user, w1, channel.
      split; [reflexivity |]. split; [exact Hc |].
      unfold run.
      apply (validate_channel_resolved _ _ _ _ _ _ _ _ _ _ _ Hm).
      now rewrite GuildChannel_get_run, Hc.
Qed.

(** The decision returns the three records it was given and sends at most
    one query, for the guild or for a role. *)
Lemma access_decision_outcome member user channel guild_id permission w :
  let run := access_decision member user channel guild_id permission w in
  (forall x, fst run = inr x -> x = (member, user, channel))
  /\ (snd run = after w []
      \/ snd run = after w [QGuild guild_id]
      \/ exists role_id, snd run = after w [QRole role_id]).
Proof.
  cbv zeta.
  destruct (access_decision member user channel guild_id permission w)
    as [r w'] eqn:E.
  cbn [fst snd]. unfold access_decision in E.
  assert (Hw : w = after w [] \/ w = after w [QGuild guild_id]
               \/ exists role_id, w = after w [QRole role_id])
    by (left; now rewrite after_nil).
  destruct (member_owner member).
  { unfold ret in E. injection E as <- <-.
    split; [now intros x [= <-] | exact Hw]. }
  destruct (first_overwrite (user_id user) (permission_overwrites channel))
    as [overwrite |].
  - unfold bind at 1 in E. rewrite getattr_run in E.
    destruct (flag_value permission) as [mask |] eqn:Ef;
      [| injection E as <- <-; split; [discriminate | exact Hw]].
    destruct (has_flag (overwrite_deny overwrite) mask);
      [unfold raise in E; injection E as <- <-;
       split; [discriminate | exact Hw] |].
    unfold bind in E. rewrite getattr_run, Ef in E.
    destruct (has_flag (overwrite_allow overwrite) mask);
      unfold ret, raise in E; cbn [negb] in E; injection E as <- <-;
      (split; [try discriminate; now intros x [= <-] | exact Hw]).
  - clear Hw.
    assert (Hb : exists r0 q,
        baseline_permissions member guild_id w = (r0, after w [q])
        /\ (q = QGuild guild_id \/ exists role_id, q = QRole role_id)).
    { unfold baseline_permissions.
      destruct (member_roles member) as [| role_id rest].
      - unfold bind, Guild_get. rewrite objects_get_run.
        destruct (get_row _) as [e | g]; eexists; eexists;
          (split; [reflexivity | now left]).
      - unfold bind, Role_get. rewrite objects_get_run.
        destruct (get_row _) as [e | r0]; eexists; eexists;
          (split; [reflexivity | right; now exists role_id]). }
    destruct Hb as (r0 & q & Hb & Hq).
    assert (Hw : after w [q] = after w []
                 \/ after w [q] = after w [QGuild guild_id]
                 \/ exists role_id, after w [q] = after w [QRole role_id]).
    { right. destruct Hq as [-> | [role_id ->]]; [now left | right].
      now exists role_id. }
    unfold bind at 1 in E. rewrite Hb in E.
    destruct r0 as [e | permissions];
      [injection E as <- <-; split; [discriminate | exact Hw] |].
    destruct (has_flag permissions administator);
      [unfold ret in E; injection E as <- <-;
       split; [now intros x [= <-] | exact Hw] |].
    unfold bind in E. rewrite getattr_run in E.
    destruct (flag_value permission) as [mask |];
      [| injection E as <- <-; split; [discriminate | exact Hw]].
    destruct (has_flag permissions mask);
      unfold ret, raise in E; cbn [negb] in E; injection E as <- <-;
      (split; [try discriminate; now intros x [= <-] | exact Hw]).
Qed.

(** X11: what [validate_channel] returns belongs together: the user is the
    verifier's for the token, the member is the store's row for that user
    and the guild, the channel is the store's row for the channel id and
    the guild; the store is left as it was. *)
Theorem validate_channel_consistent token guild_id channel_id permission
    stop_bots w member user channel w' :
  validate_channel token guild_id channel_id permission stop_bots w
    = (inr (member, user, channel), w') ->
  verify_token token = inr user
  /\ In member (members (db w))
  /\ member_id member = user_id user
  /\ member_guild_id member = guild_id
  /\ In channel (guild_channels (db w))
  /\ channel_id_of channel = channel_id
  /\ channel_guild_id channel = guild_id
  /\ db w' = db w.
Proof.
  intros Hrun.
  destruct (validate_channel_cases token guild_id channel_id permission
              stop_bots w)
    as [(e & w1 & _ & E) | [(m & u & w1 & e & _ & E)
                           | (m & u & w1 & c & Hm & Hc & E)]];
    rewrite Hrun in E; try discriminate.
  destruct (access_decision_outcome m u c guild_id permission
              (after w1 [QGuildChannel channel_id guild_id])) as [Hx Hw].
  rewrite <- E in Hx, Hw. cbn [fst snd] in Hx, Hw.
  specialize (Hx _ eq_refl). injection Hx as <- <- <-.
  assert (Hdb : db w' = db w1)
    by (destruct Hw as [-> | [-> | [role_id ->]]]; reflexivity).
  rewrite validate_member_run in Hm.
  destruct (verify_token token) as [e | u]; [discriminate |].
  destruct (memberships (db w) (user_id u) guild_id) as [| m [| m' l]] eqn:Em;
    try discriminate.
  injection Hm as <- <- <-. cbn [db after] in Hc, Hdb.
  assert (Hin : In m (memberships (db w) (user_id u) guild_id))
    by (rewrite Em; now left).
  apply filter_In in Hin as [Hin Hp].
  apply andb_true_iff in Hp as [H1 H2]. apply Z.eqb_eq in H1, H2.
  apply get_row_inr in Hc as [Hcin Hcp].
  apply andb_true_iff in Hcp as [H3 H4]. apply Z.eqb_eq in H3, H4.
  now repeat split.
Qed.

(** X12: whatever the arguments and the store, [validate_channel] sends at
    most three queries, none of them for messages, and leaves the store as
    it was. *)
Theorem validate_channel_queries token guild_id channel_id permission
    stop_bots w :
  exists qs,
    snd (validate_channel token guild_id channel_id permission stop_bots w)
      = after w qs
    /\ (List.length qs <= 3)%nat
    /\ Forall (fun q => query_bucket q = None) qs.
Proof.
  destruct (validate_channel_cases token guild_id channel_id permission
              stop_bots w)
    as [(e & w1 & Hm & ->) | [(m & u & w1 & e & Hm & ->)
                             | (m & u & w1 & c & Hm & _ & ->)]];
    apply validate_member_world in Hm as [-> | [uid ->]]; cbn [snd].
  - exists []. repeat split; [simpl; lia | constructor].
  - exists [QMember uid guild_id]. repeat split; [simpl; lia |].
    now repeat constructor.
  - eexists. rewrite after_after. repeat split; [simpl; lia |].
    now repeat constructor.
  - eexists. rewrite after_after. repeat split; [simpl; lia |].
    now repeat constructor.
  - destruct (access_decision_outcome m u c guild_id permission
                (after (after w []) [QGuildChannel channel_id guild_id]))
      as [_ [-> | [-> | [role_id ->]]]];
      eexists; rewrite !after_after; repeat split;
        try (simpl; lia); now repeat constructor.
  - destruct (access_decision_outcome m u c guild_id permission
                (after (after w [QMember uid guild_id])
                   [QGuildChannel channel_id guild_id]))
      as [_ [-> | [-> | [role_id ->]]]];
      eexists; rewrite !after_after; repeat split;
        try (simpl; lia); now repeat constructor.
Qed.

End Channels.

(** ** Further properties of the message search *)

Section Messages.

Context `{Collaborators}.

Lemma Message_bucket_page channel_id bucket limit w :
  Message_bucket channel_id bucket limit w
  = (inr (bucket_page (db w) channel_id limit bucket),
     after w [QMessages channel_id bucket limit]).
Proof. reflexivity. Qed.

(** While the number of buckets stays within [limit], the loop keeps one
    page per bucket. *)
Lemma collect_buckets_within channel_id limit n :
  forall k collected w,
  List.length collected = k ->
  Z.of_nat (k + n) <= limit ->
  collect_buckets channel_id limit (map Z.of_nat (seq k n)) collected w
  = (inr (collected
          ++ map (bucket_page (db w) channel_id limit)
               (map Z.of_nat (seq k n))),
     after w (map (fun b => QMessages channel_id b limit)
                (map Z.of_nat (seq k n)))).
Proof.
  induction n as [| n IH]; intros k collected w Hlen Hle.
  - cbn. now rewrite app_nil_r, after_nil.
  - cbn [seq map collect_buckets]. unfold bind.
    rewrite Message_bucket_page.
    replace (Z.of_nat (List.length
               (collected ++ [bucket_page (db w) channel_id limit
                                (Z.of_nat k)])) >? limit)
      with false
      by (rewrite length_app; cbn [List.length]; symmetry;
          rewrite Z.gtb_ltb; apply Z.ltb_ge; lia).
    rewrite IH; [| rewrite length_app; cbn [List.length]; lia | lia].
    cbn [db after]. rewrite <- app_assoc. cbn [app].
    now rewrite after_after.
Qed.

(** Once the number of buckets passes [limit], the slice keeps the page
    of bucket [limit] alone and the loop stops. *)
Lemma collect_buckets_beyond channel_id L n :
  forall k collected w,
  List.length collected = k ->
  (k <= L)%nat ->
  (L < k + n)%nat ->
  collect_buckets channel_id (Z.of_nat L) (map Z.of_nat (seq k n))
    collected w
  = (inr [bucket_page (db w) channel_id (Z.of_nat L) (Z.of_nat L)],
     after w (map (fun b => QMessages channel_id b (Z.of_nat L))
                (map Z.of_nat (seq k (S L - k))))).
Proof.
  induction n as [| n IH]; intros k collected w Hlen Hk Hn; [lia |].
  cbn [seq map collect_buckets]. unfold bind.
  rewrite Message_bucket_page.
  destruct (Nat.eq_dec k L) as [-> | Hne].
  - replace (Z.of_nat (List.length
               (collected ++ [bucket_page (db w) channel_id (Z.of_nat L)
                                (Z.of_nat L)])) >? Z.of_nat L)
      with true
      by (rewrite length_app; cbn [List.length]; symmetry;
          rewrite Z.gtb_ltb; apply Z.ltb_lt; lia).
    unfold ret, slice_from.
    replace (Z.of_nat L <? 0) with false by (symmetry; apply Z.ltb_ge; lia).
    rewrite Nat2Z.id, skipn_app, <- Hlen, skipn_all, Nat.sub_diag.
    replace (S (List.length collected) - List.length collected)%nat
      with 1%nat by lia.
    reflexivity.
  - replace (Z.of_nat (List.length
               (collected ++ [bucket_page (db w) channel_id (Z.of_nat L)
                                (Z.of_nat k)])) >? Z.of_nat L)
      with false
      by (rewrite length_app; cbn [List.length]; symmetry;
          rewrite Z.gtb_ltb; apply Z.ltb_ge; lia).
    rewrite IH; [| rewrite length_app; cbn [List.length]; lia | lia | lia].
    cbn [db after]. rewrite after_after.
    replace (S L - k)%nat with (S (S L - S k)) by lia.
    reflexivity.
Qed.

(** X14: when the channel has at most [limit] buckets, the listing is one
    page per bucket, from bucket [0] upwards (oldest bucket first), each
    page newest first; every bucket below [get_bucket] is queried once. *)
Theorem listing_within_limit channel_id limit w :
  0 <= limit ->
  get_bucket channel_id <= limit ->
  search_messages channel_id None limit w
  = (inr (Listing (map (bucket_page (db w) channel_id limit)
                     (range (get_bucket channel_id)))),
     after w (map (fun b => QMessages channel_id b limit)
                (range (get_bucket channel_id)))).
Proof.
  intros Hl Hb. unfold search_messages, bind, range.
  rewrite collect_buckets_within; [reflexivity | reflexivity | lia].
Qed.

(** X15: when the channel has more than [limit] buckets, the loop stops
    after bucket [limit] and the slice [collected_messages[limit:]] drops
    the pages of buckets [0] to [limit - 1]: the listing is the page of
    bucket [limit] alone, and no later bucket is read. *)
Theorem listing_beyond_limit channel_id limit w :
  0 <= limit < get_bucket channel_id ->
  search_messages channel_id None limit w
  = (inr (Listing [bucket_page (db w) channel_id limit limit]),
     after w (map (fun b => QMessages channel_id b limit)
                (range (limit + 1)))).
Proof.
  intros Hl. unfold search_messages, bind, range.
  assert (E : limit = Z.of_nat (Z.to_nat limit)) by lia.
  revert E Hl. generalize (Z.to_nat limit) as L. intros L -> Hl.
  rewrite collect_buckets_beyond; [| reflexivity | lia | lia].
  rewrite Nat.sub_0_r.
  replace (Z.to_nat (Z.of_nat L + 1)) with (S L) by lia.
  reflexivity.
Qed.

(** The point lookup, with the queries it sends. *)
Lemma lookup_buckets_unknown message_id channel_id buckets :
  forall w,
  stored (db w) message_id channel_id = [] ->
  lookup_buckets message_id channel_id buckets w
  = (inr Absent,
     after w (map (fun b => QMessage message_id channel_id b) buckets)).
Proof.
  induction buckets as [| bucket rest IH]; intros w Hs.
  - cbn. now rewrite after_nil.
  - cbn [lookup_buckets map]. unfold try_except, bind.
    rewrite Message_get_run, Hs. cbn [filter get_row].
    rewrite IH by exact Hs. now rewrite after_after.
Qed.

Lemma lookup_buckets_stops message_id channel_id msg post pre :
  forall w,
  stored (db w) message_id channel_id = [msg] ->
  ~ In (message_bucket_id msg) pre ->
  lookup_buckets message_id channel_id
    (pre ++ message_bucket_id msg :: post) w
  = (inr (Found msg),
     after w (map (fun b => QMessage message_id channel_id b)
                (pre ++ [message_bucket_id msg]))).
Proof.
  induction pre as [| bucket pre IH]; intros w Hs Hpre.
  - cbn [app lookup_buckets map]. unfold try_except, bind.
    rewrite Message_get_run, Hs. cbn [filter].
    now rewrite Z.eqb_refl.
  - cbn [app lookup_buckets map]. unfold try_except, bind.
    rewrite Message_get_run, Hs. cbn [filter].
    destruct (Z.eqb_spec (message_bucket_id msg) bucket) as [E | N].
    + exfalso. apply Hpre. now left.
    + cbn [get_row]. rewrite IH; [| exact Hs |].
      * now rewrite after_after.
      * intros Hin. apply Hpre. now right.
Qed.

Lemma range_split n b :
  0 <= b < n ->
  exists post, range n = range b ++ b :: post.
Proof.
  intros Hb. unfold range.
  replace (Z.to_nat n)
    with (Z.to_nat b + S (Z.to_nat n - S (Z.to_nat b)))%nat by lia.
  rewrite seq_app, map_app. cbn [seq map Nat.add].
  rewrite Z2Nat.id by lia. eexists. reflexivity.
Qed.

Lemma lookup_buckets_result message_id channel_id buckets :
  forall w,
  fst (lookup_buckets message_id channel_id buckets w) = inr Absent
  \/ exists msg,
       fst (lookup_buckets message_id channel_id buckets w) = inr (Found msg)
       /\ In msg (messages (db w))
       /\ message_id_of msg = message_id
       /\ message_channel_id msg = channel_id
       /\ In (message_bucket_id msg) buckets.
Proof.
  induction buckets as [| bucket rest IH]; intros w; [now left |].
  cbn [lookup_buckets]. unfold try_except, bind, Message_get.
  rewrite objects_get_run.
  destruct (get_row _) as [e | msg] eqn:Eg.
  - destruct (IH (after w [QMessage message_id channel_id bucket]))
      as [Ha | (msg & Hf & Hin & Hid & Hc & Hb)]; [now left | right].
    exists msg. repeat split; auto. now right.
  - right. exists msg. apply get_row_inr in Eg as [Hin Hp].
    apply andb_true_iff in Hp as [Hp Hb].
    apply andb_true_iff in Hp as [Hid Hc].
    apply Z.eqb_eq in Hid, Hc, Hb.
    repeat split; auto. now left.
Qed.

(** X16: the lookup never raises, whatever the store holds: it returns
    [None] or a message of the store that has the identifier and the
    channel asked for and lies in a bucket from [0] to
    [get_bucket channel_id - 1]. *)
Theorem lookup_sound channel_id message_id limit w :
  let result := fst (search_messages channel_id (Some message_id) limit w) in
  result = inr Absent
  \/ exists msg,
       result = inr (Found msg)
       /\ In msg (messages (db w))
       /\ message_id_of msg = message_id
       /\ message_channel_id msg = channel_id
       /\ 0 <= message_bucket_id msg < get_bucket channel_id.
Proof.
  cbv zeta. unfold search_messages.
  destruct (lookup_buckets_result message_id channel_id
              (range (get_bucket channel_id)) w)
    as [Ha | (msg & Hf & Hin & Hid & Hc & Hb)]; [now left | right].
  exists msg. repeat split; auto; now apply range_bounds in Hb.
Qed.

(** X17: for an identifier the channel holds no message of, the lookup
    returns [None] after one query to each bucket below [get_bucket]. *)
Theorem lookup_unknown_absent channel_id message_id limit w :
  stored (db w) message_id channel_id = [] ->
  search_messages channel_id (Some message_id) limit w
  = (inr Absent,
     after w (map (fun b => QMessage message_id channel_id b)
                (range (get_bucket channel_id)))).
Proof. intros Hs. now apply lookup_buckets_unknown. Qed.

(** X18: a message the channel holds once, in a bucket below
    [get_bucket], is returned as stored, and the scan stops at its bucket:
    the buckets after it are not queried. *)
Theorem lookup_stored_found channel_id message_id limit w msg :
  stored (db w) message_id channel_id = [msg] ->
  0 <= message_bucket_id msg < get_bucket channel_id ->
  search_messages channel_id (Some message_id) limit w
  = (inr (Found msg),
     after w (map (fun b => QMessage message_id channel_id b)
                (range (message_bucket_id msg + 1)))).
Proof.
  intros Hs Hb. unfold search_messages.
  destruct (range_split _ _ Hb) as [post ->].
  rewrite lookup_buckets_stops; [| exact Hs |].
  - f_equal. f_equal. f_equal. unfold range.
    replace (Z.to_nat (message_bucket_id msg + 1))
      with (Z.to_nat (message_bucket_id msg) + 1)%nat by lia.
    rewrite seq_app, map_app. cbn [seq map Nat.add].
    now rewrite Z2Nat.id by lia.
  - intros Hin. apply range_bounds in Hin. lia.
Qed.

End Messages.

(** ** Further properties of the structural validators *)

Section Validators.

Context `{Collaborators}.

Lemma verify_channel_position_run pos guild_id w :
  verify_channel_position pos guild_id w
  = (if pos =? max_position (guild_positions (db w) guild_id) + 1
     then inr tt else inl BadData,
     after w [QGuildChannels guild_id]).
Proof.
  unfold verify_channel_position, bind, GuildChannel_all.
  rewrite objects_all_run, highest_position_max.
  fold (guild_positions (db w) guild_id).
  now destruct (pos =? max_position (guild_positions (db w) guild_id) + 1).
Qed.

Lemma max_position_snoc l x :
  max_position (l ++ [x]) = Z.max (max_position l) x.
Proof.
  induction l as [| y l IH]; simpl; [lia |]. rewrite IH. lia.
Qed.

Lemma guild_positions_with_channel s channel guild_id :
  channel_guild_id channel = guild_id ->
  guild_positions (with_channel s channel) guild_id
  = guild_positions s guild_id ++ [channel_position channel].
Proof.
  intros Hg. unfold guild_positions, with_channel. cbn [guild_channels].
  rewrite filter_app, map_app. cbn [filter].
  now rewrite Hg, Z.eqb_refl.
Qed.

(** X19: [verify_parent_id] returns the store's channel with the parent's
    id in the guild; it raises [BadData] exactly when the guild has no
    such channel. *)
Theorem verify_parent_id_outcome parent guild_id w :
  let run := verify_parent_id parent guild_id w in
  snd run = after w [QGuildChannelById parent guild_id]
  /\ (fst run = inl BadData <-> channels_at (db w) parent guild_id = [])
  /\ (forall channel,
        fst run = inr channel ->
        In channel (guild_channels (db w))
        /\ channel_id_of channel = parent
        /\ channel_guild_id channel = guild_id).
Proof.
  cbv zeta. unfold verify_parent_id, try_except.
  rewrite objects_get_run. fold (channels_at (db w) parent guild_id).
  assert (Hrows : forall c, In c (channels_at (db w) parent guild_id) ->
            In c (guild_channels (db w))
            /\ channel_id_of c = parent /\ channel_guild_id c = guild_id).
  { intros c Hin. apply filter_In in Hin as [Hin Hp].
    apply andb_true_iff in Hp as [H1 H2]. apply Z.eqb_eq in H1, H2.
    now repeat split. }
  destruct (channels_at (db w) parent guild_id) as [| c [| c' l]];
    cbn [get_row on_DoesNotExist raise fst snd].
  - split; [reflexivity |]. split; [tauto |]. discriminate.
  - split; [reflexivity |]. split; [split; discriminate |].
    intros channel [= <-]. apply Hrows. now left.
  - split; [reflexivity |]. split; [split; discriminate |]. discriminate.
Qed.

(** X20: a position [verify_channel_position] accepts is at least [1] and
    above the position of every channel the guild has, so it collides with
    none. *)
Theorem accepted_position_is_fresh pos guild_id w :
  fst (verify_channel_position pos guild_id w) = inr tt ->
  1 <= pos
  /\ forall channel,
       In channel (guild_channels (db w)) ->
       channel_guild_id channel = guild_id ->
       channel_position channel < pos.
Proof.
  rewrite verify_channel_position_run. cbn [fst].
  destruct (Z.eqb_spec pos
              (max_position (guild_positions (db w) guild_id) + 1))
    as [-> | N]; [intros _ | discriminate].
  destruct (max_position_bounds (guild_positions (db w) guild_id))
    as [H0 Hub].
  split; [lia |]. intros channel Hin Hg.
  assert (Hp : In (channel_position channel)
                 (guild_positions (db w) guild_id)).
  { unfold guild_positions. apply in_map, filter_In. split; [exact Hin |].
    now apply Z.eqb_eq. }
  specialize (Hub _ Hp). lia.
Qed.

(** X21: once a caller has inserted a channel at an accepted position, the
    same position is refused and the next one is accepted: validated
    inserts number the channels of a guild consecutively. *)
Theorem accepted_position_then_next pos guild_id w channel :
  fst (verify_channel_position pos guild_id w) = inr tt ->
  channel_guild_id channel = guild_id ->
  channel_position channel = pos ->
  let w' := {| db := with_channel (db w) channel; trace := trace w |} in
  fst (verify_channel_position pos guild_id w') = inl BadData
  /\ fst (verify_channel_position (pos + 1) guild_id w') = inr tt.
Proof.
  intros Hv Hg Hp w'. subst w'.
  rewrite verify_channel_position_run in Hv. cbn [fst] in Hv.
  destruct (Z.eqb_spec pos
              (max_position (guild_positions (db w) guild_id) + 1))
    as [E | N]; [clear Hv | discriminate].
  rewrite !verify_channel_position_run. cbn [fst db].
  rewrite (guild_positions_with_channel _ _ _ Hg), max_position_snoc, Hp.
  destruct (max_position_bounds (guild_positions (db w) guild_id))
    as [H0 _].
  replace (Z.max (max_position (guild_positions (db w) guild_id)) pos)
    with pos by lia.
  split.
  - destruct (Z.eqb_spec pos (pos + 1)); [lia | reflexivity].
  - now rewrite Z.eqb_refl.
Qed.

End Validators.

(** ** The functions run on the demo deployment *)

Import Demo.

#[local] Existing Instance collaborators.

(** C1: a verified account flagged as a bot, member of the guild.
    [validate_member] called with [stop_bots] set returns the member and the
    user instead of raising [Forbidden], after the membership lookup; so
    does [validate_channel]. *)
Theorem validate_member_admits_bot :
  verify_token "robot"%string = inr robot
  /\ user_bot robot = true
  /\ validate_member "robot"%string 7 true start
     = (inr (robot_member, robot), after start [QMember 10 7])
  /\ fst (validate_channel "robot"%string 7 100 "send_messages"%string true
            start)
     = inr (robot_member, robot, lobby)
  /\ fst (validate_user "robot"%string true start) = inl Forbidden.
Proof. repeat split. Qed.

(** C3: two buckets of two messages each and [limit = 2].  The listing
    holds both bucket results, four messages in all. *)
Theorem listing_exceeds_limit :
  get_bucket 100 = 2
  /\ fst (search_messages 100 None 2 start)
     = inr (Listing [[m2; m1]; [m4; m3]])
  /\ message_count (Listing [[m2; m1]; [m4; m3]]) = 4
  /\ 2 < 4.
Proof. repeat split. Qed.

(** C4: message [5] is stored for channel [100] in bucket [2], which is
    [get_bucket 100]; the lookup scans buckets [0] and [1] and returns
    [None]. *)
Theorem current_bucket_message_missed :
  In m5 (messages store)
  /\ message_id_of m5 = 5
  /\ message_channel_id m5 = 100
  /\ message_bucket_id m5 = get_bucket 100
  /\ search_messages 100 (Some 5) 50 start
     = (inr Absent, after start [QMessage 5 100 0; QMessage 5 100 1]).
Proof. repeat split. simpl. tauto. Qed.

(** C2 fails as stated: channel [101] lists two overwrites for user [1],
    the second of which denies [send_messages]; the scan stops at the first
    one, which allows it, and access is granted. *)
Lemma later_deny_overwrite_granted :
  let denying := mkOverwrite 1 0 SEND_MESSAGES in
  fst (validate_member "alice"%string 7 false start)
    = inr (alice_member, alice)
  /\ member_owner alice_member = false
  /\ In denying (permission_overwrites allow_then_deny)
  /\ overwrite_id denying = user_id alice
  /\ flag_value "send_messages"%string = Some SEND_MESSAGES
  /\ has_flag (overwrite_deny denying) SEND_MESSAGES = true
  /\ fst (validate_channel "alice"%string 7 101 "send_messages"%string false
            start)
     = inr (alice_member, alice, allow_then_deny)
  /\ fst (validate_channel "alice"%string 7 101 "send_messages"%string false
            start)
     <> inl Forbidden.
Proof. repeat split; try discriminate. simpl. tauto. Qed.

Lemma overwrite_deny_forbidden_witness :
  validate_channel "alice"%string 7 102 "send_messages"%string false start
    = (inl Forbidden, after start [QMember 1 7; QGuildChannel 102 7])
  /\ trace (after start [QMember 1 7; QGuildChannel 102 7])
     = trace start ++ [QMember (user_id alice) 7; QGuildChannel 102 7].
Proof.
  apply (@overwrite_deny_forbidden collaborators "alice"%string 7 102
           "send_messages"%string false start alice_member alice
           (after start [QMember 1 7]) deny_then_allow
           (after start [QMember 1 7; QGuildChannel 102 7])
           (mkOverwrite 1 0 SEND_MESSAGES) SEND_MESSAGES);
    reflexivity.
Defined.

(** C5 fails as stated: channel [102] lists two overwrites for user [1],
    the second of which allows [send_messages] and denies nothing; the scan
    stops at the first one, which denies it, and access is refused. *)
Lemma later_allow_overwrite_refused :
  let allowing := mkOverwrite 1 SEND_MESSAGES 0 in
  fst (validate_member "alice"%string 7 false start)
    = inr (alice_member, alice)
  /\ member_owner alice_member = false
  /\ In allowing (permission_overwrites deny_then_allow)
  /\ overwrite_id allowing = user_id alice
  /\ flag_value "send_messages"%string = Some SEND_MESSAGES
  /\ has_flag (overwrite_allow allowing) SEND_MESSAGES = true
  /\ has_flag (overwrite_deny allowing) SEND_MESSAGES = false
  /\ fst (validate_channel "alice"%string 7 102 "send_messages"%string false
            start)
     = inl Forbidden.
Proof. repeat split. simpl. tauto. Qed.

Lemma overwrite_allow_granted_witness :
  validate_channel "alice"%string 7 100 "send_messages"%string false start
    = (inr (alice_member, alice, lobby),
       after start [QMember 1 7; QGuildChannel 100 7])
  /\ trace (after start [QMember 1 7; QGuildChannel 100 7])
     = trace start ++ [QMember (user_id alice) 7; QGuildChannel 100 7].
Proof.
  apply (@overwrite_allow_granted collaborators "alice"%string 7 100
           "send_messages"%string false start alice_member alice
           (after start [QMember 1 7]) lobby
           (after start [QMember 1 7; QGuildChannel 100 7])
           (mkOverwrite 1 SEND_MESSAGES 0) SEND_MESSAGES);
    reflexivity.
Defined.

Lemma owner_granted_witness :
  member_owner olga_member = true
  /\ validate_channel "olga"%string 7 102 "manage_channel"%string false start
     = (inr (olga_member, olga, deny_then_allow),
        after start [QMember 2 7; QGuildChannel 102 7]).
Proof.
  split; [reflexivity |].
  apply (@owner_granted collaborators "olga"%string 7 102
           "manage_channel"%string false start olga_member olga
           (after start [QMember 2 7]) deny_then_allow
           (after start [QMember 2 7; QGuildChannel 102 7]));
    reflexivity.
Defined.

Lemma administrator_granted_witness :
  member_roles ravi_member = [50; 51]
  /\ has_flag 1 administator = true
  /\ validate_channel "ravi"%string 7 104 "no_such_flag"%string false start
     = (inr (ravi_member, ravi, plain),
        after start [QMember 3 7; QGuildChannel 104 7; QRole 50]).
Proof.
  split; [reflexivity |]. split; [reflexivity |].
  apply (@administrator_granted collaborators "ravi"%string 7 104 false start
           ravi_member ravi (after start [QMember 3 7]) plain
           (after start [QMember 3 7; QGuildChannel 104 7]) 1
           (after start [QMember 3 7; QGuildChannel 104 7; QRole 50]));
    reflexivity.
Defined.

Lemma roleless_guild_default_witness :
  fst (validate_channel "alice"%string 7 104 "send_messages"%string false
         start)
    = inr (alice_member, alice, plain)
  /\ fst (validate_channel "alice"%string 7 104 "manage_channel"%string false
            start)
     <> inr (alice_member, alice, plain).
Proof.
  split.
  - apply (@roleless_guild_default collaborators "alice"%string 7 104
             "send_messages"%string false start alice_member alice
             (after start [QMember 1 7]) plain
             (after start [QMember 1 7; QGuildChannel 104 7])
             (mkGuild 7 SEND_MESSAGES)
             (after start [QMember 1 7; QGuildChannel 104 7; QGuild 7]));
      try reflexivity.
    right. exists SEND_MESSAGES. split; reflexivity.
  - intros E.
    apply (@roleless_guild_default collaborators "alice"%string 7 104
             "manage_channel"%string false start alice_member alice
             (after start [QMember 1 7]) plain
             (after start [QMember 1 7; QGuildChannel 104 7])
             (mkGuild 7 SEND_MESSAGES)
             (after start [QMember 1 7; QGuildChannel 104 7; QGuild 7]))
      in E; try reflexivity.
    destruct E as [E | (mask & Hf & Hp)]; [discriminate |].
    injection Hf as <-. discriminate.
Defined.

(** C9 fails as stated: guild [9] has one channel, at position [-1], so the
    maximum is [-1] and the next position would be [0], which is refused;
    guild [8] has no channel, hence no maximum, and position [1] is
    accepted. *)
Lemma position_maximum_counterexample :
  (guild_positions store 9 = [-1]
   /\ is_maximum (-1) (guild_positions store 9)
   /\ fst (verify_channel_position 0 9 start) = inl BadData
   /\ fst (verify_channel_position 1 9 start) = inr tt)
  /\ (guild_positions store 8 = []
      /\ (forall m, ~ is_maximum m (guild_positions store 8))
      /\ fst (verify_channel_position 1 8 start) = inr tt).
Proof.
  split; repeat split.
  - simpl. tauto.
  - simpl. intros x [<- | []]. lia.
  - intros m [[] _].
Qed.

Lemma position_is_next_witness :
  guild_positions store 7 = [1; 2; 3; 4]
  /\ fst (verify_channel_position 5 7 start) = inr tt
  /\ fst (verify_channel_position 4 7 start) = inl BadData.
Proof.
  split; [reflexivity |]. split.
  - apply (position_is_next 5 7 start). reflexivity.
  - apply (position_is_next 4 7 start). discriminate.
Defined.

Lemma search_messages_buckets_witness :
  get_bucket 104 = 0
  /\ fst (search_messages 104 None 50 start) = inr (Listing [])
  /\ fst (search_messages 104 (Some 1) 50 start) = inr Absent.
Proof.
  split; [reflexivity |]. split.
  - destruct (@search_messages_buckets collaborators 104 None 50 start)
      as (qs & _ & _ & Hz).
    apply Hz. reflexivity.
  - destruct (@search_messages_buckets collaborators 104 (Some 1) 50 start)
      as (qs & _ & _ & Hz).
    apply Hz. reflexivity.
Defined.

(** ** The further properties on the demo deployments *)

Lemma validate_member_non_member_witness :
  validate_member "alice"%string 8 false start
    = (inl Forbidden, after start [QMember 1 8]).
Proof.
  apply (@validate_member_non_member collaborators "alice"%string 8 false
           start alice); reflexivity.
Defined.

Lemma validate_member_consistent_witness :
  verify_token "alice"%string = inr alice
  /\ In alice_member (members (db start))
  /\ member_id alice_member = user_id alice
  /\ member_guild_id alice_member = 7
  /\ after start [QMember 1 7] = after start [QMember (user_id alice) 7].
Proof.
  apply (@validate_member_consistent collaborators "alice"%string 7 false
           start alice_member alice (after start [QMember 1 7])).
  reflexivity.
Defined.

Lemma validate_member_failures_witness :
  (verify_token "nobody"%string = inl Unauthenticated /\ start = start)
  \/ exists user,
       verify_token "nobody"%string = inr user
       /\ start = after start [QMember (user_id user) 7]
       /\ ((Unauthenticated = Forbidden
            /\ memberships (db start) (user_id user) 7 = [])
           \/ (Unauthenticated = MultipleObjectsReturned
               /\ (2 <= List.length
                          (memberships (db start) (user_id user) 7))%nat)).
Proof.
  apply (@validate_member_failures collaborators "nobody"%string 7 false
           start Unauthenticated start).
  reflexivity.
Defined.

Lemma validate_channel_missing_channel_witness :
  member_owner olga_member = true
  /\ validate_channel "olga"%string 7 555 "send_messages"%string false start
     = (inl NotFound, after start [QMember 2 7; QGuildChannel 555 7]).
Proof.
  split; [reflexivity |].
  apply (@validate_channel_missing_channel collaborators "olga"%string 7 555
           "send_messages"%string false start olga_member olga
           (after start [QMember 2 7])); reflexivity.
Defined.

Lemma validate_channel_member_failure_witness :
  validate_channel "alice"%string 8 555 "send_messages"%string false start
    = (inl Forbidden, after start [QMember 1 8]).
Proof.
  apply (@validate_channel_member_failure collaborators "alice"%string 8 555
           "send_messages"%string false start Forbidden
           (after start [QMember 1 8])).
  reflexivity.
Defined.

Lemma overwrite_decides_witness :
  snd (validate_channel "alice"%string 7 100 "manage_channel"%string false
         start)
    = after start [QMember 1 7; QGuildChannel 100 7]
  /\ forall e,
       fst (validate_channel "alice"%string 7 100 "manage_channel"%string
              false start) = inl e ->
       e = Forbidden \/ e = AttributeError "manage_channel"%string.
Proof.
  pose proof (@overwrite_decides collaborators "alice"%string 7 100
                "manage_channel"%string false start alice_member alice
                (after start [QMember 1 7]) lobby
                (after start [QMember 1 7; QGuildChannel 100 7])
                (mkOverwrite 1 SEND_MESSAGES 0)
                eq_refl eq_refl eq_refl eq_refl) as (_ & He & Hw).
  split; [exact Hw | exact He].
Defined.

Lemma first_role_decides_witness :
  trace (snd (validate_channel "ravi"%string 7 104 "send_messages"%string
                false start))
    = trace start ++ [QMember (user_id ravi) 7; QGuildChannel 104 7;
                      QRole 50].
Proof.
  apply (@first_role_decides collaborators "ravi"%string 7 104
           "send_messages"%string false start ravi_member ravi
           (after start [QMember 3 7]) plain
           (after start [QMember 3 7; QGuildChannel 104 7])
           50 [51] (mkRole 50 1)
           (after start [QMember 3 7; QGuildChannel 104 7; QRole 50]));
    reflexivity.
Defined.

Lemma missing_role_propagates_witness :
  validate_channel "alice"%string 7 100 "send_messages"%string false
    Orphan.start
    = (inl DoesNotExist,
       after Orphan.start [QMember (user_id alice) 7; QGuildChannel 100 7;
                           QRole 99]).
Proof.
  apply (@missing_role_propagates collaborators "alice"%string 7 100
           "send_messages"%string false Orphan.start Orphan.member alice
           (after Orphan.start [QMember 1 7]) Orphan.room
           (after Orphan.start [QMember 1 7; QGuildChannel 100 7])
           99 [50]);
    reflexivity.
Defined.

Lemma validate_channel_consistent_witness :
  verify_token "alice"%string = inr alice
  /\ In alice_member (members (db start))
  /\ member_id alice_member = user_id alice
  /\ member_guild_id alice_member = 7
  /\ In lobby (guild_channels (db start))
  /\ channel_id_of lobby = 100
  /\ channel_guild_id lobby = 7
  /\ db (after start [QMember 1 7; QGuildChannel 100 7]) = db start.
Proof.
  apply (@validate_channel_consistent collaborators "alice"%string 7 100
           "send_messages"%string false start alice_member alice lobby
           (after start [QMember 1 7; QGuildChannel 100 7])).
  reflexivity.
Defined.

Lemma first_overwrite_unique_witness :
  first_overwrite 10 (permission_overwrites lobby)
    = Some (mkOverwrite 10 SEND_MESSAGES 0).
Proof.
  apply (first_overwrite_unique 10 (permission_overwrites lobby)
           (mkOverwrite 10 SEND_MESSAGES 0)).
  - repeat constructor; simpl; intuition discriminate.
  - simpl. tauto.
  - reflexivity.
Defined.

Lemma listing_within_limit_witness :
  search_messages 100 None 2 start
    = (inr (Listing (map (bucket_page (db start) 100 2) (range 2))),
       after start (map (fun b => QMessages 100 b 2) (range 2))).
Proof.
  apply (@listing_within_limit collaborators 100 2 start);
    [lia | discriminate].
Defined.

Lemma listing_beyond_limit_witness :
  search_messages 100 None 1 start
    = (inr (Listing [bucket_page (db start) 100 1 1]),
       after start (map (fun b => QMessages 100 b 1) (range (1 + 1))))
  /\ bucket_page (db start) 100 1 1 = [m4].
Proof.
  split; [| reflexivity].
  apply (@listing_beyond_limit collaborators 100 1 start).
  split; [lia | reflexivity].
Defined.

Lemma lookup_unknown_absent_witness :
  search_messages 100 (Some 77) 50 start
    = (inr Absent,
       after start (map (fun b => QMessage 77 100 b) (range 2))).
Proof.
  apply (@lookup_unknown_absent collaborators 100 77 50 start).
  reflexivity.
Defined.

Lemma lookup_stored_found_witness :
  search_messages 100 (Some 1) 50 start
    = (inr (Found m1),
       after start (map (fun b => QMessage 1 100 b)
                      (range (message_bucket_id m1 + 1)))).
Proof.
  apply (@lookup_stored_found collaborators 100 1 50 start m1);
    [reflexivity | split; [discriminate | reflexivity]].
Defined.

Lemma accepted_position_is_fresh_witness :
  1 <= 5
  /\ forall channel,
       In channel (guild_channels (db start)) ->
       channel_guild_id channel = 7 ->
       channel_position channel < 5.
Proof.
  apply (accepted_position_is_fresh 5 7 start). reflexivity.
Defined.

Lemma accepted_position_then_next_witness :
  let w' := {| db := with_channel (db start) (mkChannel 105 7 5 0 []);
               trace := trace start |} in
  fst (verify_channel_position 5 7 w') = inl BadData
  /\ fst (verify_channel_position (5 + 1) 7 w') = inr tt.
Proof.
  apply (accepted_position_then_next 5 7 start (mkChannel 105 7 5 0 []));
    reflexivity.
Defined.
